(** * Teleprompter alignment engine of TopPanel.tsx

    A shallow embedding of the script segmenter, the tokenizer
    [parseSegmentToTokens] and the matching state machine of the [TopPanel]
    React component, followed by the properties its specification states.

    JavaScript strings are sequences of UTF-16 code units; they are modelled
    as lists of integers.  Numbers that the component stores (indices, counts,
    lengths) are integers well inside the exact range of a double and are
    modelled in [Z], so that the value [-1] produced by [Math.min] on an empty
    script is representable. *)

From Stdlib Require Import String Ascii.
From Stdlib Require Import ZArith List Bool Lia QArith.
Import ListNotations.
Open Scope Z_scope.

(** ** Strings *)

Definition codeUnit := Z.
Definition jsString := list codeUnit.

(** [s.length] *)
Definition len {A : Type} (l : list A) : Z := Z.of_nat (length l).

(** [a === b] on strings. *)
Fixpoint strEqb (a b : jsString) : bool :=
  match a, b with
  | [], [] => true
  | x :: a', y :: b' => (x =? y) && strEqb a' b'
  | _, _ => false
  end.

(** [arr[i]] for a numeric index: [None] stands for [undefined]. *)
Definition lookupZ {A : Type} (arr : list A) (i : Z) : option A :=
  if i <? 0 then None else nth_error arr (Z.to_nat i).

(** [s.slice(start)] *)
Definition slice (s : jsString) (start : Z) : jsString :=
  let from := if start <? 0 then Z.max (len s + start) 0 else Z.min start (len s) in
  skipn (Z.to_nat from) s.

Definition inRange (lo hi c : Z) : bool := (lo <=? c) && (c <=? hi).

(** The character class [[a-zA-Z0-9]]. *)
Definition isAlnum (c : codeUnit) : bool :=
  inRange 97 122 c || inRange 65 90 c || inRange 48 57 c.

(** The character class [[\u4e00-\u9fa5\u3040-\u30ff\uac00-\ud7af]]. *)
Definition isCJK (c : codeUnit) : bool :=
  inRange 19968 40869 c || inRange 12352 12543 c || inRange 44032 55215 c.

(** The class [\s] of a regular expression, which is also the set of code
    units that [String.prototype.trim] removes (WhiteSpace and
    LineTerminator). *)
Definition isSpace (c : codeUnit) : bool :=
  inRange 9 13 c || (c =? 32) || (c =? 160) || (c =? 5760) ||
  inRange 8192 8202 c || (c =? 8232) || (c =? 8233) || (c =? 8239) ||
  (c =? 8287) || (c =? 12288) || (c =? 65279).

(** [toLowerCase] is only ever applied to tokens, which consist of code units
    of [isAlnum] or of one code unit of [isCJK]; on those the Unicode lower
    casing changes the letters A-Z and nothing else. *)
Definition lowerUnit (c : codeUnit) : codeUnit :=
  if inRange 65 90 c then c + 32 else c.

Definition toLowerCase (s : jsString) : jsString := map lowerUnit s.

(** ** Tokenizer *)

Definition flushRun (run : jsString) : list jsString :=
  match run with
  | [] => []
  | _ => [run]
  end.

(** The [regex.exec] loop of [parseSegmentToTokens] over
    [/[a-zA-Z0-9]+|[CJK]/g]: [run] is the alphanumeric run being extended. *)
Fixpoint scanTokens (run : jsString) (s : jsString) : list jsString :=
  match s with
  | [] => flushRun run
  | c :: rest =>
      if isAlnum c then scanTokens (run ++ [c]) rest
      else if isCJK c then flushRun run ++ [c] :: scanTokens [] rest
      else flushRun run ++ scanTokens [] rest
  end.

Definition parseSegmentToTokens (segment : jsString) : list jsString :=
  scanTokens [] segment.

(** ** Segmenter *)

Definition pipe : codeUnit := 124.

(** The class [[.!?\u3002\uff01\uff1f]] of terminal marks. *)
Definition isTerminal (c : codeUnit) : bool :=
  (c =? 46) || (c =? 33) || (c =? 63) ||
  (c =? 12290) || (c =? 65281) || (c =? 65311).

(** [s.replace(/([terminal])\s*/g, "$1|")]: [skipping] is set while the
    white space that follows a terminal mark is being consumed by the match. *)
Fixpoint replaceTerminals (skipping : bool) (s : jsString) : jsString :=
  match s with
  | [] => []
  | c :: rest =>
      if skipping && isSpace c then replaceTerminals true rest
      else if isTerminal c then c :: pipe :: replaceTerminals true rest
      else c :: replaceTerminals false rest
  end.

(** [s.split('|')], with [cur] the piece being collected. *)
Fixpoint splitPipe (cur : jsString) (s : jsString) : list jsString :=
  match s with
  | [] => [cur]
  | c :: rest =>
      if c =? pipe then cur :: splitPipe [] rest
      else splitPipe (cur ++ [c]) rest
  end.

Fixpoint dropSpaces (s : jsString) : jsString :=
  match s with
  | [] => []
  | c :: rest => if isSpace c then dropSpaces rest else s
  end.

(** [s.trim()] *)
Definition trim (s : jsString) : jsString :=
  rev (dropSpaces (rev (dropSpaces s))).

(** The [segments] memo of the component. *)
Definition segments (teleprompterScript : jsString) : list jsString :=
  match teleprompterScript with
  | [] => []
  | _ =>
      filter (fun s => len s >? 0)
        (map trim (splitPipe [] (replaceTerminals false teleprompterScript)))
  end.

(** The [segmentTokensMap] memo of the component. *)
Definition segmentTokensMap (teleprompterScript : jsString) : list (list jsString) :=
  map parseSegmentToTokens (segments teleprompterScript).

(** What the specification asks of the segmenter, in its words: the
    non-whitespace characters of the input, each exactly once and in order. *)
Definition nonSpace (c : codeUnit) : bool := negb (isSpace c).

Definition nonWhitespaceOf (s : jsString) : jsString := filter nonSpace s.

(** The same with the separator character left out as well. *)
Definition keptBySegmenter (c : codeUnit) : bool :=
  nonSpace c && negb (c =? pipe).

(** ** The component state *)

Inductive AiFeature := NONE | INTERVIEWER | TELEPROMPTER.

Definition isTeleprompter (feature : AiFeature) : bool :=
  match feature with
  | TELEPROMPTER => true
  | _ => false
  end.

(** What [scrollTimeoutRef.current] holds when it is not null: the component
    stores both the auto-advance debounce (50 ms) and the wheel throttle
    (150 ms) in that one ref. *)
Inductive timerKind := AutoAdvanceTimer | WheelThrottleTimer.

Record PanelState := mkPanelState {
  activeSegmentIndex : Z;
  matchedWordCount : Z;
  lastTranscriptLength : Z;          (* lastTranscriptLengthRef.current *)
  scrollTimeout : option timerKind   (* scrollTimeoutRef.current *)
}.

Definition initialState : PanelState := mkPanelState 0 0 0 None.

(** A statement either completes or throws: the only throw the matching code
    can reach is the [TypeError] of calling [toLowerCase] on [undefined]. *)
Inductive completion (A : Type) :=
| Normal (a : A)
| TypeError.
Arguments Normal {A} a.
Arguments TypeError {A}.

Definition bind {A B : Type} (c : completion A) (k : A -> completion B) : completion B :=
  match c with
  | Normal a => k a
  | TypeError => TypeError
  end.

Notation "x <- c ;; k" := (bind c (fun x => k))
  (at level 61, c at next level, right associativity).

(** [tokens[i].toLowerCase()] *)
Definition lowerAt (tokens : list jsString) (i : Z) : completion jsString :=
  match lookupZ tokens i with
  | Some t => Normal (toLowerCase t)
  | None => TypeError
  end.

(** ** Matching one spoken token *)

(** The inner loop [for (offset = 0; offset <= 4; offset++)]; the result is
    the new [currentMatchIndex] when [matchFound]. *)
Fixpoint localLoop (offsets : list Z) (currentTokens : list jsString)
    (currentMatchIndex : Z) (spokenClean : jsString) : completion (option Z) :=
  match offsets with
  | [] => Normal None
  | offset :: more =>
      let checkIndex := currentMatchIndex + offset in
      if checkIndex >=? len currentTokens then Normal None
      else
        scriptToken <- lowerAt currentTokens checkIndex ;;
        if strEqb spokenClean scriptToken then Normal (Some (checkIndex + 1))
        else localLoop more currentTokens currentMatchIndex spokenClean
  end.

Definition lookaheadOffsets : list Z := [0; 1; 2; 3; 4].

Definition localMatch (currentTokens : list jsString) (currentMatchIndex : Z)
    (spokenClean : jsString) : completion (option Z) :=
  localLoop lookaheadOffsets currentTokens currentMatchIndex spokenClean.

(** [currentTokens.length > 0 ? currentMatchIndex / currentTokens.length : 1].
    The quotient is kept exact: for counts below 2^50 the double the component
    computes lies on the same side of the double [0.6] as the exact quotient
    lies of 3/5. *)
Definition completionRatio (currentMatchIndex : Z) (currentTokens : list jsString) : Q :=
  if len currentTokens >? 0
  then inject_Z currentMatchIndex / inject_Z (len currentTokens)
  else 1%Q.

(** [completionRatio > 0.6] *)
Definition ratioExceeds (currentMatchIndex : Z) (currentTokens : list jsString) : bool :=
  negb (Qle_bool (completionRatio currentMatchIndex currentTokens) (6 # 10)).

(** The loop [for (j = 0; j < Math.min(3, nextTokens.length); j++)]; the
    result is the [j] of the jump. *)
Fixpoint jumpLoop (js : list Z) (nextTokens : list jsString)
    (spokenClean : jsString) : completion (option Z) :=
  match js with
  | [] => Normal None
  | j :: more =>
      if j <? Z.min 3 (len nextTokens) then
        nextToken <- lowerAt nextTokens j ;;
        if strEqb spokenClean nextToken then Normal (Some j)
        else jumpLoop more nextTokens spokenClean
      else Normal None
  end.

Definition jumpOffsets : list Z := [0; 1; 2].

Section Machine.

(** The token tables of the script, [segmentTokensMap]; [segments.length]
    is the length of this table. *)
Variable tokensMap : list (list jsString).

Definition segmentsLength : Z := len tokensMap.

(** The cross-segment block that follows a failed local match. *)
Definition crossSegment (activeIdx : Z) (currentTokens : list jsString)
    (currentMatchIndex : Z) (spokenClean : jsString) : completion (option Z) :=
  if (activeIdx <? segmentsLength - 1) && ratioExceeds currentMatchIndex currentTokens then
    match lookupZ tokensMap (activeIdx + 1) with
    | Some nextTokens =>
        if len nextTokens >? 0 then jumpLoop jumpOffsets nextTokens spokenClean
        else Normal None
    | None => Normal None
    end
  else Normal None.

(** How the loop over the spoken tokens ends: by falling out of the loop
    with the final [currentMatchIndex], or by the [return] of a jump. *)
Inductive loopResult :=
| LoopEnd (currentMatchIndex : Z)
| LoopJump (j : Z).

(** [for (const token of spokenTokens) { ... }] *)
Fixpoint matchLoop (activeIdx : Z) (currentTokens : list jsString)
    (spokenTokens : list jsString) (currentMatchIndex : Z) : completion loopResult :=
  match spokenTokens with
  | [] => Normal (LoopEnd currentMatchIndex)
  | token :: rest =>
      let spokenClean := toLowerCase token in
      found <- localMatch currentTokens currentMatchIndex spokenClean ;;
      match found with
      | Some next => matchLoop activeIdx currentTokens rest next
      | None =>
          jump <- crossSegment activeIdx currentTokens currentMatchIndex spokenClean ;;
          match jump with
          | Some j => Normal (LoopJump j)
          | None => matchLoop activeIdx currentTokens rest currentMatchIndex
          end
      end
  end.

(** The tail of the effect after the loop: [setMatchedWordCount] and the
    auto-advance block. *)
Definition afterLoop (st : PanelState) (currentTokens : list jsString)
    (currentMatchIndex : Z) : PanelState :=
  let timer :=
    if (len currentTokens >? 0) && (currentMatchIndex >=? len currentTokens) then
      match scrollTimeout st with
      | None => Some AutoAdvanceTimer
      | Some pending => Some pending
      end
    else scrollTimeout st in
  mkPanelState (activeSegmentIndex st) currentMatchIndex (lastTranscriptLength st) timer.

(** The state after the [return] of a jump. *)
Definition afterJump (st : PanelState) (j : Z) : PanelState :=
  mkPanelState (activeSegmentIndex st + 1) (j + 1) (lastTranscriptLength st) None.

(** The matching effect, run when [transcript] changes
    ([consumeTranscriptDelta] in the specification).  The state updates of
    a run make React run the effect once more with the same transcript;
    that run returns at the length guard. *)
Definition matchingEffect (feature : AiFeature) (transcript : jsString)
    (st : PanelState) : completion PanelState :=
  if negb (isTeleprompter feature) then Normal st
  else
    let prevLen := lastTranscriptLength st in
    if len transcript <=? prevLen then Normal st
    else
      let newText := slice transcript prevLen in
      let st1 := mkPanelState (activeSegmentIndex st) (matchedWordCount st)
                              (len transcript) (scrollTimeout st) in
      let spokenTokens := parseSegmentToTokens newText in
      if len spokenTokens =? 0 then Normal st1
      else
        match lookupZ tokensMap (activeSegmentIndex st) with
        | None => Normal st1
        | Some currentTokens =>
            r <- matchLoop (activeSegmentIndex st) currentTokens spokenTokens
                   (matchedWordCount st) ;;
            match r with
            | LoopJump j => Normal (afterJump st1 j)
            | LoopEnd currentMatchIndex =>
                Normal (afterLoop st1 currentTokens currentMatchIndex)
            end
        end.

(** The callback a pending timer runs when it fires. *)
Definition timerFires (st : PanelState) : PanelState :=
  match scrollTimeout st with
  | None => st
  | Some AutoAdvanceTimer =>
      mkPanelState (Z.min (activeSegmentIndex st + 1) segmentsLength) 0
                   (lastTranscriptLength st) None
  | Some WheelThrottleTimer =>
      mkPanelState (activeSegmentIndex st) (matchedWordCount st)
                   (lastTranscriptLength st) None
  end.

Inductive direction := next | prev.

(** [handleManualScroll] *)
Definition handleManualScroll (d : direction) (st : PanelState) : PanelState :=
  let prevIdx := activeSegmentIndex st in
  let nextIdx :=
    match d with
    | next => Z.min (prevIdx + 1) (segmentsLength - 1)
    | prev => Z.max (prevIdx - 1) 0
    end in
  mkPanelState nextIdx
               (if nextIdx =? prevIdx then matchedWordCount st else 0)
               (lastTranscriptLength st) (scrollTimeout st).

(** [handleWheel], with [deltaY] in whole pixels. *)
Definition handleWheel (feature : AiFeature) (deltaY : Z) (st : PanelState) : PanelState :=
  if negb (isTeleprompter feature) then st
  else
    match scrollTimeout st with
    | Some _ => st
    | None =>
        if Z.abs deltaY >? 20 then
          let st' := handleManualScroll (if deltaY >? 0 then next else prev) st in
          mkPanelState (activeSegmentIndex st') (matchedWordCount st')
                       (lastTranscriptLength st') (Some WheelThrottleTimer)
        else st
    end.

(** The reset effect, run when the script or the feature changes.  It leaves
    [scrollTimeoutRef] alone.  The script is fixed here, so this is the reset
    of a feature toggle, for which the host clears the transcript in the same
    batch and the matching effect of that commit returns at its length
    guard. *)
Definition resetEffect (st : PanelState) : PanelState :=
  mkPanelState 0 0 0 (scrollTimeout st).

(** What the host can do to the component. *)
Inductive event :=
| TranscriptUpdate (transcript : jsString)
| TimerFires
| ManualScroll (d : direction)
| Wheel (deltaY : Z)
| Reset.

(** One event, handled to the end before the next one: the component runs on
    a single thread. *)
Definition step (st : PanelState) (ev : event) : completion PanelState :=
  match ev with
  | TranscriptUpdate transcript => matchingEffect TELEPROMPTER transcript st
  | TimerFires => Normal (timerFires st)
  | ManualScroll d => Normal (handleManualScroll d st)
  | Wheel deltaY => Normal (handleWheel TELEPROMPTER deltaY st)
  | Reset => Normal (resetEffect st)
  end.

Fixpoint run (st : PanelState) (evs : list event) : completion PanelState :=
  match evs with
  | [] => Normal st
  | ev :: more => st' <- step st ev ;; run st' more
  end.

(** The states the events of [step] reach from the initial state while the
    script stays the same.  A script saved in the middle of a session is not
    among these events: on that commit the matching effect runs with the new
    token tables from the position of the old script. *)
Inductive reachable : PanelState -> Prop :=
| reachable_initial : reachable initialState
| reachable_step st ev st' :
    reachable st -> step st ev = Normal st' -> reachable st'.

(** The invariant of the specification's data model. *)
Definition invariant (st : PanelState) : Prop :=
  0 <= activeSegmentIndex st <= segmentsLength /\
  (activeSegmentIndex st < segmentsLength ->
   exists tokens, lookupZ tokensMap (activeSegmentIndex st) = Some tokens /\
                  0 <= matchedWordCount st <= len tokens).

End Machine.

Arguments segmentsLength tokensMap /.

(** [hitsAt tokens spokenClean p]: position [p] exists in the table and its
    lowercased token equals the lowercased spoken token. *)
Definition hitsAt (tokens : list jsString) (spokenClean : jsString) (p : Z) : bool :=
  match lookupZ tokens p with
  | Some t => strEqb spokenClean (toLowerCase t)
  | None => false
  end.

(** The local match as the specification words it: a window of four tokens,
    positions [matchedTokenCount] to [matchedTokenCount + 3]. *)
Definition specLocalMatch (currentTokens : list jsString) (currentMatchIndex : Z)
    (spokenClean : jsString) : completion (option Z) :=
  localLoop [0; 1; 2; 3] currentTokens currentMatchIndex spokenClean.

(** ** Scripts and transcripts used as examples *)

(** The code units of a text of ASCII characters. *)
Definition ofAscii (s : string) : jsString :=
  List.map (fun c => Z.of_nat (nat_of_ascii c)) (list_ascii_of_string s).

Definition scriptHello : jsString := ofAscii "Hello world. Testing one two.".
Definition saidHelloWorld : jsString := ofAscii "Hello world".
Definition saidHelloWorldTesting : jsString := ofAscii "Hello world. Testing".
Definition saidHelloXyz : jsString := ofAscii "Hello xyz".

(** The script of the two segments U+4F60 U+597D U+4E16 U+754C U+3002 and
    U+4ECA U+5929 U+5929 U+6C14 U+5F88 U+597D U+3002. *)
Definition scriptChinese : jsString :=
  [20320; 22909; 19990; 30028; 12290; 20170; 22825; 22825; 27668; 24456; 22909; 12290].

(** The transcript U+4F60 U+597D U+4E16 U+754C, a space, U+4ECA U+5929. *)
Definition saidChinese : jsString :=
  [20320; 22909; 19990; 30028; 32; 20170; 22825].

Definition scriptAbc : jsString := ofAscii "a. b. c.".
Definition saidA : jsString := ofAscii "a".

Definition scriptNumbers : jsString := ofAscii "one two. three four five.".
Definition saidOneToFour : jsString := ofAscii "one two three four".
Definition saidOneToFourSpace : jsString := ofAscii "one two three four ".

(** A script that opens with an ellipsis: its first three segments are the
    three dots, none of which has a token. *)
Definition scriptEllipsis : jsString := ofAscii "... and so on.".
Definition saidUm : jsString := ofAscii "um".

Definition scriptWithPipe : jsString := ofAscii "a|b".


(** ** The renderer and the host *)

(** [isCJK(str)] of the component: the expression is tested against the
    whole string, so one CJK code unit anywhere is enough. *)
Definition isCJKString (str : jsString) : bool := existsb isCJK str.

(** One [span] of [renderSegmentText]: the token, whether it is drawn green
    ([isMatched]) and whether it gets the right margin ([!isCurrentCJK]). *)
Record tokenSpan := mkTokenSpan {
  spanToken : jsString;
  spanMatched : bool;
  spanMargin : bool
}.

(** [tokens.map((token, idx) => ...)] of [renderSegmentText]: token [idx] is
    matched when [idx < matchedCount]. *)
Fixpoint renderFrom (idx : Z) (tokens : list jsString) (matchedCount : Z)
    : list tokenSpan :=
  match tokens with
  | [] => []
  | token :: rest =>
      mkTokenSpan token (idx <? matchedCount) (negb (isCJKString token))
      :: renderFrom (idx + 1) rest matchedCount
  end.

Definition renderSegmentText (tokens : list jsString) (matchedCount : Z)
    : list tokenSpan :=
  renderFrom 0 tokens matchedCount.

(** The [disabled] attributes of the two side buttons. *)
Definition prevDisabled (st : PanelState) : bool := activeSegmentIndex st =? 0.

Definition nextDisabled (tokensMap : list (list jsString)) (st : PanelState) : bool :=
  activeSegmentIndex st >=? segmentsLength tokensMap - 1.

(** [setTranscript(prev => prev + " " + t)] of the host component, run on
    every result of the recognizer. *)
Definition appendTranscript (prevTranscript t : jsString) : jsString :=
  prevTranscript ++ 32 :: t.

(** ** Predicates used in the statements *)

(** A code unit that the tokenizer keeps. *)
Definition isTokenChar (c : codeUnit) : bool := isAlnum c || isCJK c.

(** A token as the tokenizer's expression allows it: a non-empty run of
    alphanumeric code units, or one CJK code unit. *)
Definition wellFormedToken (t : jsString) : bool :=
  match t with
  | [] => false
  | [c] => isTokenChar c
  | _ => forallb isAlnum t
  end.

Definition noPipe (s : jsString) : bool := forallb (fun c => negb (c =? pipe)) s.

(** Every terminal mark is directly followed by a pipe. *)
Fixpoint terminalsPiped (s : jsString) : bool :=
  match s with
  | [] => true
  | c :: rest =>
      (if isTerminal c then
         match rest with
         | d :: _ => d =? pipe
         | [] => false
         end
       else true) && terminalsPiped rest
  end.

(** A terminal mark occurs at the last position only. *)
Fixpoint terminalOnlyLast (s : jsString) : bool :=
  match s with
  | [] => true
  | c :: rest =>
      (negb (isTerminal c) || match rest with [] => true | _ => false end)
      && terminalOnlyLast rest
  end.

(** The token tables with every token lowercased. *)
Definition lowerTokens (tokens : list jsString) : list jsString :=
  List.map toLowerCase tokens.

(** The matching effect behind its length guard, as a function of the new
    cursor and of the spoken tokens of the delta; it is used to compare
    runs of the effect. *)
Definition consumeTokens (tokensMap : list (list jsString)) (st : PanelState)
    (newLength : Z) (spokenTokens : list jsString) : completion PanelState :=
  let st1 := mkPanelState (activeSegmentIndex st) (matchedWordCount st)
                          newLength (scrollTimeout st) in
  if len spokenTokens =? 0 then Normal st1
  else
    match lookupZ tokensMap (activeSegmentIndex st) with
    | None => Normal st1
    | Some currentTokens =>
        r <- matchLoop tokensMap (activeSegmentIndex st) currentTokens spokenTokens
               (matchedWordCount st) ;;
        match r with
        | LoopJump j => Normal (afterJump st1 j)
        | LoopEnd currentMatchIndex =>
            Normal (afterLoop st1 currentTokens currentMatchIndex)
        end
    end.

(** ** Comparison without case, in the specification's words *)

(** Two code units are the same letter when they are equal or are the upper
    and the lower case of one of the letters A to Z. *)
Definition sameLetter (x y : codeUnit) : bool :=
  (x =? y) || (inRange 65 90 x && (y =? x + 32)) || (inRange 65 90 y && (x =? y + 32)).

(** Case-insensitive equality of two tokens. *)
Fixpoint equalIgnoringCase (a b : jsString) : bool :=
  match a, b with
  | [], [] => true
  | x :: a', y :: b' => sameLetter x y && equalIgnoringCase a' b'
  | _, _ => false
  end.

(** [caselessHit tokens spoken p]: position [p] exists in the table and its
    token equals the spoken token up to the case of letters. *)
Definition caselessHit (tokens : list jsString) (spoken : jsString) (p : Z) : bool :=
  match lookupZ tokens p with
  | Some t => equalIgnoringCase spoken t
  | None => false
  end.

(** ** Basic facts *)

Lemma strEqb_eq (a b : jsString) : strEqb a b = true <-> a = b.
Proof.
  revert b; induction a as [|x a IH]; intros [|y b]; simpl; split;
    try congruence; try reflexivity.
  - intros H. apply andb_true_iff in H as [Hxy Hab].
    apply Z.eqb_eq in Hxy. apply IH in Hab. congruence.
  - intros H. injection H as -> ->. rewrite Z.eqb_refl. simpl. now apply IH.
Qed.

Lemma len_nonneg {A : Type} (l : list A) : 0 <= len l.
Proof. unfold len. lia. Qed.

Lemma len_app {A : Type} (l1 l2 : list A) : len (l1 ++ l2) = len l1 + len l2.
Proof. unfold len. rewrite length_app. lia. Qed.

Lemma lookupZ_Some_range {A : Type} (l : list A) (i : Z) (x : A) :
  lookupZ l i = Some x -> 0 <= i < len l.
Proof.
  unfold lookupZ, len. destruct (Z.ltb_spec i 0) as [Hneg | Hpos]; [discriminate|].
  intros H. assert (Hlt : (Z.to_nat i < length l)%nat).
  { apply nth_error_Some. congruence. }
  lia.
Qed.

Lemma lookupZ_in_range {A : Type} (l : list A) (i : Z) :
  0 <= i < len l -> exists x, lookupZ l i = Some x.
Proof.
  unfold lookupZ, len. intros [Hlo Hhi].
  destruct (Z.ltb_spec i 0) as [Hneg | Hpos]; [lia|].
  destruct (nth_error l (Z.to_nat i)) as [x|] eqn:E; [eauto|].
  apply nth_error_None in E. lia.
Qed.

Lemma lookupZ_None_out {A : Type} (l : list A) (i : Z) :
  lookupZ l i = None -> i < 0 \/ len l <= i.
Proof.
  intros H. destruct (Z.ltb_spec i 0) as [Hneg | Hpos]; [now left|].
  right. destruct (Z.ltb_spec i (len l)) as [Hlt | Hge]; [|exact Hge].
  destruct (lookupZ_in_range l i) as [x Hx]; [lia | congruence].
Qed.

Lemma hitsAt_range (tokens : list jsString) (sc : jsString) (p : Z) :
  hitsAt tokens sc p = true -> 0 <= p < len tokens.
Proof.
  unfold hitsAt. destruct (lookupZ tokens p) as [t|] eqn:E; [|discriminate].
  intros _. eapply lookupZ_Some_range; eauto.
Qed.

(** One turn of the [offset] loop, for a position that is not negative. *)
Lemma localLoop_cons (o : Z) (more : list Z) (ct : list jsString) (cmi : Z) (sc : jsString) :
  0 <= cmi + o ->
  localLoop (o :: more) ct cmi sc =
    if hitsAt ct sc (cmi + o) then Normal (Some (cmi + o + 1))
    else if cmi + o >=? len ct then Normal None
    else localLoop more ct cmi sc.
Proof.
  intros Hpos. simpl. unfold hitsAt, lowerAt.
  destruct (Z.geb_spec (cmi + o) (len ct)) as [Hge | Hlt].
  - destruct (lookupZ ct (cmi + o)) as [t|] eqn:E; [|reflexivity].
    apply lookupZ_Some_range in E. lia.
  - destruct (lookupZ_in_range ct (cmi + o)) as [t Ht]; [lia|].
    rewrite Ht. simpl. destruct (strEqb sc (toLowerCase t)); reflexivity.
Qed.

(** One turn of the [j] loop of the jump. *)
Lemma jumpLoop_cons (j : Z) (more : list Z) (nt : list jsString) (sc : jsString) :
  0 <= j ->
  jumpLoop (j :: more) nt sc =
    if hitsAt nt sc j then
      if j <? 3 then Normal (Some j) else Normal None
    else if j <? Z.min 3 (len nt) then jumpLoop more nt sc
    else Normal None.
Proof.
  intros Hpos. simpl. unfold hitsAt, lowerAt.
  destruct (Z.ltb_spec j (Z.min 3 (len nt))) as [Hlt | Hge].
  - destruct (lookupZ_in_range nt j) as [t Ht]; [lia|].
    rewrite Ht. simpl. destruct (strEqb sc (toLowerCase t)); [|reflexivity].
    destruct (Z.ltb_spec j 3); [reflexivity | lia].
  - destruct (lookupZ nt j) as [t|] eqn:E; [|reflexivity].
    apply lookupZ_Some_range in E.
    destruct (strEqb sc (toLowerCase t)); [|reflexivity].
    destruct (Z.ltb_spec j 3); [lia | reflexivity].
Qed.

(** The local match never throws from an index that is not negative, and a
    match lands strictly after the index and inside the table. *)
Lemma localMatch_total (ct : list jsString) (cmi : Z) (sc : jsString) :
  0 <= cmi ->
  exists r, localMatch ct cmi sc = Normal r /\
            (forall n, r = Some n -> cmi < n <= len ct /\ n <= cmi + 5).
Proof.
  intros Hpos. unfold localMatch, lookaheadOffsets.
  repeat (rewrite localLoop_cons by lia;
          match goal with
          | |- context [hitsAt ct sc ?p] =>
              destruct (hitsAt ct sc p) eqn:?;
              [ eexists; split; [reflexivity|];
                intros n Hn; injection Hn as <-;
                match goal with H : hitsAt _ _ _ = true |- _ =>
                  apply hitsAt_range in H end; lia
              | destruct (cmi + _ >=? len ct);
                [ eexists; split; [reflexivity | discriminate] | ] ]
          end).
  simpl. eexists; split; [reflexivity | discriminate].
Qed.

Lemma jumpLoop_total (nt : list jsString) (sc : jsString) :
  exists r, jumpLoop jumpOffsets nt sc = Normal r /\
            (forall j, r = Some j -> 0 <= j < Z.min 3 (len nt)).
Proof.
  unfold jumpOffsets.
  repeat (rewrite jumpLoop_cons by lia;
          match goal with
          | |- context [hitsAt nt sc ?p] =>
              destruct (hitsAt nt sc p) eqn:?;
              [ simpl; eexists; split; [reflexivity|];
                intros j Hj; injection Hj as <-;
                match goal with H : hitsAt _ _ _ = true |- _ =>
                  apply hitsAt_range in H end; lia
              | destruct (_ <? Z.min 3 (len nt));
                [ | eexists; split; [reflexivity | discriminate] ] ]
          end).
  simpl. eexists; split; [reflexivity | discriminate].
Qed.

Lemma ratioExceeds_true (cmi : Z) (ct : list jsString) :
  ratioExceeds cmi ct = true <-> (6 # 10 < completionRatio cmi ct)%Q.
Proof.
  unfold ratioExceeds. rewrite negb_true_iff.
  split.
  - intros H. apply Qnot_le_lt. intros Hle.
    apply Qle_bool_iff in Hle. congruence.
  - intros H. destruct (Qle_bool (completionRatio cmi ct) (6 # 10)) eqn:E; [|reflexivity].
    apply Qle_bool_iff in E. exfalso. exact (Qlt_not_le _ _ H E).
Qed.

Lemma ratioExceeds_false (cmi : Z) (ct : list jsString) :
  ratioExceeds cmi ct = false <-> (completionRatio cmi ct <= 6 # 10)%Q.
Proof.
  unfold ratioExceeds. rewrite negb_false_iff. apply Qle_bool_iff.
Qed.

(** On a table with tokens the ratio test is the integer comparison
    [5 * currentMatchIndex > 3 * length]. *)
Lemma ratioExceeds_integers (cmi : Z) (ct : list jsString) :
  0 < len ct ->
  ratioExceeds cmi ct = true <-> 3 * len ct < 5 * cmi.
Proof.
  intros Hlen. rewrite ratioExceeds_true. unfold completionRatio.
  destruct (Z.gtb_spec (len ct) 0) as [_ | Hle]; [|lia].
  assert (Hq : (inject_Z cmi / inject_Z (len ct) == cmi # Z.to_pos (len ct))%Q).
  { rewrite (Qmake_Qdiv cmi (Z.to_pos (len ct))).
    rewrite Z2Pos.id by lia. reflexivity. }
  rewrite Hq. unfold Qlt.
  change (Qnum (6 # 10)) with 6. change (Qden (6 # 10)) with 10%positive.
  change (Qnum (cmi # Z.to_pos (len ct))) with cmi.
  change (Qden (cmi # Z.to_pos (len ct))) with (Z.to_pos (len ct)).
  rewrite Z2Pos.id by lia. lia.
Qed.

Section MachineFacts.

Variable tokensMap : list (list jsString).

Lemma crossSegment_total (idx : Z) (ct : list jsString) (cmi : Z) (sc : jsString) :
  exists r, crossSegment tokensMap idx ct cmi sc = Normal r /\
            (forall j, r = Some j ->
               idx < len tokensMap - 1 /\
               exists nt, lookupZ tokensMap (idx + 1) = Some nt /\
                          0 <= j < Z.min 3 (len nt)).
Proof.
  unfold crossSegment, segmentsLength.
  destruct (Z.ltb_spec idx (len tokensMap - 1)) as [Hlt | Hge]; simpl;
    [|eexists; split; [reflexivity | discriminate]].
  destruct (ratioExceeds cmi ct);
    [|eexists; split; [reflexivity | discriminate]].
  destruct (lookupZ tokensMap (idx + 1)) as [nt|] eqn:E;
    [|eexists; split; [reflexivity | discriminate]].
  destruct (len nt >? 0);
    [|eexists; split; [reflexivity | discriminate]].
  destruct (jumpLoop_total nt sc) as [r [Hr Hrange]].
  exists r. split; [exact Hr|].
  intros j Hj. split; [exact Hlt|]. exists nt. split; [reflexivity|]. now apply Hrange.
Qed.

(** The loop over the spoken tokens never throws from an index that is not
    negative; it only moves the index forward, never past the table. *)
Lemma matchLoop_total (idx : Z) (ct : list jsString) (spoken : list jsString) :
  forall m, 0 <= m ->
  exists r, matchLoop tokensMap idx ct spoken m = Normal r /\
    match r with
    | LoopEnd cmi => m <= cmi <= Z.max m (len ct)
    | LoopJump j =>
        idx < len tokensMap - 1 /\
        exists nt, lookupZ tokensMap (idx + 1) = Some nt /\
                   0 <= j < Z.min 3 (len nt)
    end.
Proof.
  induction spoken as [|token rest IH]; intros m Hm; cbn [matchLoop].
  - eexists; split; [reflexivity|]. cbv beta iota. lia.
  - destruct (localMatch_total ct m (toLowerCase token) Hm) as [found [Hfound Hrange]].
    rewrite Hfound. cbn [bind]. destruct found as [n|].
    + destruct (Hrange n eq_refl) as [Hn _].
      destruct (IH n ltac:(lia)) as [r [Hr Hres]].
      exists r. split; [exact Hr|].
      destruct r as [cmi | j]; cbv beta iota in *; [lia | exact Hres].
    + destruct (crossSegment_total idx ct m (toLowerCase token)) as [jump [Hjump Hj]].
      rewrite Hjump. cbn [bind]. destruct jump as [j|].
      * eexists; split; [reflexivity|]. now apply Hj.
      * apply IH; exact Hm.
Qed.

(** Tokens processed without a jump only move the running index. *)
Lemma matchLoop_app (idx : Z) (ct : list jsString) (pre rest : list jsString) :
  forall m cmi,
  matchLoop tokensMap idx ct pre m = Normal (LoopEnd cmi) ->
  matchLoop tokensMap idx ct (pre ++ rest) m = matchLoop tokensMap idx ct rest cmi.
Proof.
  induction pre as [|token pre IH]; intros m cmi; simpl.
  - intros H. injection H as ->. reflexivity.
  - destruct (localMatch ct m (toLowerCase token)) as [found|]; simpl; [|discriminate].
    destruct found as [n|]; [apply IH|].
    destruct (crossSegment tokensMap idx ct m (toLowerCase token)) as [jump|]; simpl;
      [|discriminate].
    destruct jump as [j|]; [discriminate | apply IH].
Qed.

(** The matching effect from its guards on: what it does once the
    transcript has grown, has spoken tokens and a segment is active. *)
Lemma matchingEffect_active (transcript : jsString) (st : PanelState)
    (ct : list jsString) :
  lastTranscriptLength st < len transcript ->
  parseSegmentToTokens (slice transcript (lastTranscriptLength st)) <> [] ->
  lookupZ tokensMap (activeSegmentIndex st) = Some ct ->
  matchingEffect tokensMap TELEPROMPTER transcript st =
    (r <- matchLoop tokensMap (activeSegmentIndex st) ct
            (parseSegmentToTokens (slice transcript (lastTranscriptLength st)))
            (matchedWordCount st) ;;
     match r with
     | LoopJump j =>
         Normal (mkPanelState (activeSegmentIndex st + 1) (j + 1) (len transcript) None)
     | LoopEnd cmi =>
         Normal (afterLoop (mkPanelState (activeSegmentIndex st) (matchedWordCount st)
                                         (len transcript) (scrollTimeout st)) ct cmi)
     end).
Proof.
  intros Hgrow Htokens Hct. unfold matchingEffect. simpl.
  destruct (Z.leb_spec (len transcript) (lastTranscriptLength st)); [lia|].
  destruct (parseSegmentToTokens (slice transcript (lastTranscriptLength st)))
    as [|t ts] eqn:E; [congruence|].
  replace (len (t :: ts) =? 0) with false
    by (symmetry; apply Z.eqb_neq; unfold len; simpl; lia).
  rewrite Hct. reflexivity.
Qed.

End MachineFacts.

(** ** The two inner loops, position by position *)

Lemma localLoop_hit (o : Z) (more : list Z) (ct : list jsString) (cmi : Z) (sc : jsString) :
  0 <= cmi + o -> hitsAt ct sc (cmi + o) = true ->
  localLoop (o :: more) ct cmi sc = Normal (Some (cmi + o + 1)).
Proof. intros Hpos Hhit. rewrite localLoop_cons by exact Hpos. now rewrite Hhit. Qed.

Lemma localLoop_skip (o : Z) (more : list Z) (ct : list jsString) (cmi : Z) (sc : jsString) :
  0 <= cmi + o -> cmi + o < len ct -> hitsAt ct sc (cmi + o) = false ->
  localLoop (o :: more) ct cmi sc = localLoop more ct cmi sc.
Proof.
  intros Hpos Hin Hmiss. rewrite localLoop_cons by exact Hpos. rewrite Hmiss.
  destruct (Z.geb_spec (cmi + o) (len ct)); [lia | reflexivity].
Qed.

Lemma jumpLoop_hit (j : Z) (more : list Z) (nt : list jsString) (sc : jsString) :
  0 <= j < 3 -> hitsAt nt sc j = true ->
  jumpLoop (j :: more) nt sc = Normal (Some j).
Proof.
  intros Hj Hhit. rewrite jumpLoop_cons by lia. rewrite Hhit.
  destruct (Z.ltb_spec j 3); [reflexivity | lia].
Qed.

Lemma jumpLoop_skip (j : Z) (more : list Z) (nt : list jsString) (sc : jsString) :
  0 <= j < 3 -> j < len nt -> hitsAt nt sc j = false ->
  jumpLoop (j :: more) nt sc = jumpLoop more nt sc.
Proof.
  intros Hj Hin Hmiss. rewrite jumpLoop_cons by lia. rewrite Hmiss.
  destruct (Z.ltb_spec j (Z.min 3 (len nt))); [reflexivity | lia].
Qed.

(** The first hit inside the five positions of the local loop is taken. *)
Lemma localMatch_first_hit (ct : list jsString) (cmi : Z) (sc : jsString) (p : Z) :
  0 <= cmi -> cmi <= p <= cmi + 4 ->
  hitsAt ct sc p = true ->
  (forall q, cmi <= q < p -> hitsAt ct sc q = false) ->
  localMatch ct cmi sc = Normal (Some (p + 1)).
Proof.
  intros Hcmi Hp Hhit Hfirst. pose proof (hitsAt_range _ _ _ Hhit) as Hr.
  unfold localMatch, lookaheadOffsets.
  assert (Hk : p = cmi + 0 \/ p = cmi + 1 \/ p = cmi + 2 \/ p = cmi + 3 \/ p = cmi + 4)
    by lia.
  destruct Hk as [-> | [-> | [-> | [-> | ->]]]];
    repeat (rewrite localLoop_skip by (try lia; apply Hfirst; lia));
    rewrite localLoop_hit by (try lia; exact Hhit); reflexivity.
Qed.

(** No hit inside the five positions: no local match. *)
Lemma localMatch_no_hit (ct : list jsString) (cmi : Z) (sc : jsString) :
  0 <= cmi ->
  (forall p, cmi <= p <= cmi + 4 -> hitsAt ct sc p = false) ->
  localMatch ct cmi sc = Normal None.
Proof.
  intros Hcmi Hmiss. unfold localMatch, lookaheadOffsets.
  repeat (rewrite localLoop_cons by lia; rewrite Hmiss by lia;
          match goal with
          | |- context [?a >=? ?b] => destruct (a >=? b); [reflexivity|]
          end).
  reflexivity.
Qed.

Lemma jumpLoop_first_hit (nt : list jsString) (sc : jsString) (j : Z) :
  0 <= j < 3 ->
  hitsAt nt sc j = true ->
  (forall i, 0 <= i < j -> hitsAt nt sc i = false) ->
  jumpLoop jumpOffsets nt sc = Normal (Some j).
Proof.
  intros Hj Hhit Hfirst. pose proof (hitsAt_range _ _ _ Hhit) as Hr.
  unfold jumpOffsets.
  assert (Hk : j = 0 \/ j = 1 \/ j = 2) by lia.
  destruct Hk as [-> | [-> | ->]];
    repeat (rewrite jumpLoop_skip by (try lia; apply Hfirst; lia));
    rewrite jumpLoop_hit by (try lia; exact Hhit); reflexivity.
Qed.

Lemma jumpLoop_no_hit (nt : list jsString) (sc : jsString) :
  (forall j, 0 <= j < 3 -> hitsAt nt sc j = false) ->
  jumpLoop jumpOffsets nt sc = Normal None.
Proof.
  intros Hmiss. unfold jumpOffsets.
  repeat (rewrite jumpLoop_cons by lia; rewrite Hmiss by lia;
          match goal with
          | |- context [?a <? ?b] => destruct (a <? b); [|reflexivity]
          end).
  reflexivity.
Qed.

(** ** Local match (C7) *)

(** C7, as amended.  For a spoken token and a running index that is not
    negative, the local-match step examines the positions
    [matchedTokenCount + 0] to [matchedTokenCount + 4] of the active
    segment's token table (five positions: the expected token and the four
    after it), none beyond them and none past the end of the table; on the
    first of these whose lowercased token equals the lowercased spoken token
    it sets the running index to that position + 1 and goes on with the next
    spoken token; with no such position there is no local match. *)
Theorem local_match_window (tokensMap : list (list jsString)) (idx : Z)
    (ct : list jsString) (cmi : Z) (token : jsString) (rest : list jsString) :
  0 <= cmi ->
  (forall p, cmi <= p <= cmi + 4 ->
     hitsAt ct (toLowerCase token) p = true ->
     (forall q, cmi <= q < p -> hitsAt ct (toLowerCase token) q = false) ->
     localMatch ct cmi (toLowerCase token) = Normal (Some (p + 1)) /\
     matchLoop tokensMap idx ct (token :: rest) cmi =
     matchLoop tokensMap idx ct rest (p + 1))
  /\
  ((forall p, cmi <= p <= cmi + 4 -> hitsAt ct (toLowerCase token) p = false) ->
   localMatch ct cmi (toLowerCase token) = Normal None).
Proof.
  intros Hcmi. split.
  - intros p Hp Hhit Hfirst.
    pose proof (localMatch_first_hit ct cmi _ p Hcmi Hp Hhit Hfirst) as Hloc.
    split; [exact Hloc|]. cbn [matchLoop]. rewrite Hloc. reflexivity.
  - intros Hmiss. now apply localMatch_no_hit.
Qed.

Lemma local_match_window_witness :
  localMatch [[97]; [98]] 0 (toLowerCase [66]) = Normal (Some 2) /\
  localMatch [[97]; [98]] 0 (toLowerCase [67]) = Normal None.
Proof.
  split.
  - refine (proj1 (proj1 (local_match_window [] 0 [[97]; [98]] 0 [66] [] _) 1 _ _ _)).
    + lia.
    + lia.
    + reflexivity.
    + intros q Hq. assert (q = 0) as -> by lia. reflexivity.
  - refine (proj2 (local_match_window [] 0 [[97]; [98]] 0 [67] [] _) _).
    + lia.
    + intros p Hp.
      assert (p = 0 \/ p = 1 \/ p = 2 \/ p = 3 \/ p = 4) as [-> | [-> | [-> | [-> | ->]]]]
        by lia; reflexivity.
Defined.

(** C7, as stated, fails: with the table [a b c d e], nothing matched yet and
    the spoken token [e], the component matches position 4, the fifth
    position examined, where a window of four tokens finds no match. *)
Lemma local_match_window_counterexample :
  localMatch [[97]; [98]; [99]; [100]; [101]] 0 (toLowerCase [101]) = Normal (Some 5) /\
  specLocalMatch [[97]; [98]; [99]; [100]; [101]] 0 (toLowerCase [101]) = Normal None.
Proof. split; reflexivity. Qed.

(** ** Cross-segment jump (C1) *)

Lemma lowerUnit_cases (c : codeUnit) :
  (65 <= c <= 90 /\ lowerUnit c = c + 32) \/ ((c < 65 \/ 90 < c) /\ lowerUnit c = c).
Proof.
  unfold lowerUnit, inRange.
  destruct (Z.leb_spec 65 c); destruct (Z.leb_spec c 90); cbn [andb];
    first [left; split; [lia | reflexivity] | right; split; [lia | reflexivity]].
Qed.

Lemma lowerUnit_sameLetter (x y : codeUnit) :
  (lowerUnit x =? lowerUnit y) = sameLetter x y.
Proof.
  unfold sameLetter, inRange.
  destruct (lowerUnit_cases x) as [[Hx ->] | [Hx ->]];
    destruct (lowerUnit_cases y) as [[Hy ->] | [Hy ->]];
    destruct (Z.eqb_spec x y); destruct (Z.eqb_spec y (x + 32));
    destruct (Z.eqb_spec x (y + 32));
    destruct (Z.leb_spec 65 x); destruct (Z.leb_spec x 90);
    destruct (Z.leb_spec 65 y); destruct (Z.leb_spec y 90);
    cbn [andb orb]; try lia;
    first [ apply Z.eqb_eq; lia | apply Z.eqb_neq; lia ].
Qed.

(** The comparison of the component, [spokenClean === scriptToken] on the
    lowercased tokens, is equality up to the case of letters. *)
Lemma strEqb_toLowerCase (a b : jsString) :
  strEqb (toLowerCase a) (toLowerCase b) = equalIgnoringCase a b.
Proof.
  revert b; induction a as [|x a IH]; intros [|y b]; try reflexivity.
  cbn [toLowerCase List.map strEqb equalIgnoringCase].
  fold (toLowerCase a). fold (toLowerCase b).
  now rewrite IH, lowerUnit_sameLetter.
Qed.

Lemma hitsAt_caseless (tokens : list jsString) (token : jsString) (p : Z) :
  hitsAt tokens (toLowerCase token) p = caselessHit tokens token p.
Proof.
  unfold hitsAt, caselessHit. destruct (lookupZ tokens p); [|reflexivity].
  apply strEqb_toLowerCase.
Qed.

(** On a table with tokens the ratio of the component is the quotient of the
    matched count by the token count; on a table without tokens the component
    takes it to be 1. *)
Lemma completionRatio_quotient (cmi : Z) (ct : list jsString) :
  0 < len ct ->
  completionRatio cmi ct = (inject_Z cmi / inject_Z (len ct))%Q.
Proof.
  intros Hlen. unfold completionRatio.
  destruct (Z.gtb_spec (len ct) 0); [reflexivity | lia].
Qed.

Lemma quotient_exceeds_has_tokens (cmi : Z) (ct : list jsString) :
  (6 # 10 < inject_Z cmi / inject_Z (len ct))%Q -> 0 < len ct.
Proof.
  intros H. pose proof (len_nonneg ct) as Hn.
  destruct (Z.eq_dec (len ct) 0) as [Hz | Hnz]; [|lia].
  exfalso. rewrite Hz in H. unfold Qlt, Qdiv, Qmult, Qinv, inject_Z in H.
  cbn in H. lia.
Qed.


Lemma crossSegment_blocked (tokensMap : list (list jsString)) (idx : Z)
    (ct : list jsString) (cmi : Z) (sc : jsString) :
  (completionRatio cmi ct <= 6 # 10)%Q \/ segmentsLength tokensMap - 1 <= idx ->
  crossSegment tokensMap idx ct cmi sc = Normal None.
Proof.
  unfold crossSegment. intros [Hratio | Hlast].
  - apply ratioExceeds_false in Hratio. rewrite Hratio, andb_false_r. reflexivity.
  - destruct (Z.ltb_spec idx (segmentsLength tokensMap - 1)); [lia | reflexivity].
Qed.

Lemma crossSegment_no_hit (tokensMap : list (list jsString)) (idx : Z)
    (ct : list jsString) (cmi : Z) (sc : jsString) :
  (forall nt j, lookupZ tokensMap (idx + 1) = Some nt -> 0 <= j < 3 ->
                hitsAt nt sc j = false) ->
  crossSegment tokensMap idx ct cmi sc = Normal None.
Proof.
  intros Hmiss. unfold crossSegment.
  destruct (_ && _); [|reflexivity].
  destruct (lookupZ tokensMap (idx + 1)) as [nt|] eqn:E; [|reflexivity].
  destruct (len nt >? 0); [|reflexivity].
  apply jumpLoop_no_hit. intros j Hj. now apply (Hmiss nt j).
Qed.

Lemma crossSegment_first_hit (tokensMap : list (list jsString)) (idx : Z)
    (ct nt : list jsString) (cmi : Z) (sc : jsString) (j : Z) :
  (6 # 10 < completionRatio cmi ct)%Q ->
  idx < segmentsLength tokensMap - 1 ->
  lookupZ tokensMap (idx + 1) = Some nt ->
  0 <= j < 3 ->
  hitsAt nt sc j = true ->
  (forall i, 0 <= i < j -> hitsAt nt sc i = false) ->
  crossSegment tokensMap idx ct cmi sc = Normal (Some j).
Proof.
  intros Hratio Hnext Hnt Hj Hhit Hfirst. unfold crossSegment.
  apply ratioExceeds_true in Hratio. rewrite Hratio, Hnt.
  destruct (Z.ltb_spec idx (segmentsLength tokensMap - 1)); [|lia].
  pose proof (hitsAt_range _ _ _ Hhit) as Hr.
  destruct (Z.gtb_spec (len nt) 0); [|lia]. simpl.
  now apply jumpLoop_first_hit.
Qed.

(** C1.  Let the delta of a call tokenize to [pre ++ token :: rest], let the
    tokens of [pre] be processed without a jump up to the running matched
    count [cmi], and let [token] find no local match: it equals, up to the
    case of letters, none of the tokens at the positions [cmi] to [cmi + 4] of
    the active segment.  If the quotient of [cmi] by the token count of the
    active segment exceeds 0.6, a next segment exists and [j] is the first of
    its first three positions whose token equals the spoken token up to case,
    the call ends in the state with [activeSegmentIndex + 1],
    [matchedWordCount = j + 1] and no pending timer, whatever [rest] is and
    whatever timer was pending.  If the active segment has tokens and the
    quotient is 0.6 or below, or there is no next segment, or none of the
    first three tokens of the next segment equals the spoken token up to
    case, the token causes no jump: the loop goes on with [rest] from the
    same matched count. *)
Theorem cross_segment_jump (tokensMap : list (list jsString)) (transcript : jsString)
    (st : PanelState) (ct : list jsString) (pre : list jsString) (token : jsString)
    (rest : list jsString) (cmi : Z) :
  lastTranscriptLength st < len transcript ->
  parseSegmentToTokens (slice transcript (lastTranscriptLength st)) = pre ++ token :: rest ->
  lookupZ tokensMap (activeSegmentIndex st) = Some ct ->
  0 <= matchedWordCount st ->
  matchLoop tokensMap (activeSegmentIndex st) ct pre (matchedWordCount st)
    = Normal (LoopEnd cmi) ->
  (forall p, cmi <= p <= cmi + 4 -> caselessHit ct token p = false) ->
  (forall nt j,
     (6 # 10 < inject_Z cmi / inject_Z (len ct))%Q ->
     activeSegmentIndex st < segmentsLength tokensMap - 1 ->
     lookupZ tokensMap (activeSegmentIndex st + 1) = Some nt ->
     0 <= j < 3 ->
     caselessHit nt token j = true ->
     (forall i, 0 <= i < j -> caselessHit nt token i = false) ->
     matchingEffect tokensMap TELEPROMPTER transcript st =
       Normal (mkPanelState (activeSegmentIndex st + 1) (j + 1) (len transcript) None))
  /\
  ((0 < len ct /\ (inject_Z cmi / inject_Z (len ct) <= 6 # 10)%Q) \/
   segmentsLength tokensMap - 1 <= activeSegmentIndex st \/
   (forall nt j, lookupZ tokensMap (activeSegmentIndex st + 1) = Some nt ->
                 0 <= j < 3 -> caselessHit nt token j = false) ->
   matchLoop tokensMap (activeSegmentIndex st) ct (pre ++ token :: rest)
     (matchedWordCount st)
   = matchLoop tokensMap (activeSegmentIndex st) ct rest cmi).
Proof.
  intros Hgrow Htokens Hct Hmwc Hpre Hnolocal.
  assert (Hcmi : 0 <= cmi).
  { destruct (matchLoop_total tokensMap (activeSegmentIndex st) ct pre
                (matchedWordCount st) Hmwc) as [r [Hr Hres]].
    rewrite Hpre in Hr. injection Hr as <-. cbv beta iota in Hres. lia. }
  assert (Hlocal : localMatch ct cmi (toLowerCase token) = Normal None).
  { apply localMatch_no_hit; [exact Hcmi|].
    intros p Hp. rewrite hitsAt_caseless. now apply Hnolocal. }
  split.
  - intros nt j Hquot Hnext Hnt Hj Hhit Hfirst.
    pose proof (quotient_exceeds_has_tokens cmi ct Hquot) as Hlen.
    rewrite <- (completionRatio_quotient cmi ct Hlen) in Hquot.
    rewrite (matchingEffect_active tokensMap transcript st ct Hgrow); [|
      rewrite Htokens; now destruct pre | exact Hct].
    rewrite Htokens, (matchLoop_app _ _ _ _ _ _ _ Hpre).
    cbn [matchLoop]. rewrite Hlocal. cbn [bind].
    rewrite (crossSegment_first_hit tokensMap _ ct nt cmi _ j Hquot Hnext Hnt Hj).
    + reflexivity.
    + now rewrite hitsAt_caseless.
    + intros i Hi. rewrite hitsAt_caseless. now apply Hfirst.
  - intros Hno. rewrite (matchLoop_app _ _ _ _ _ _ _ Hpre).
    cbn [matchLoop]. rewrite Hlocal. cbn [bind].
    assert (Hcross : crossSegment tokensMap (activeSegmentIndex st) ct cmi
                       (toLowerCase token) = Normal None).
    { destruct Hno as [[Hlen Hquot] | [Hlast | Hmiss]].
      - apply crossSegment_blocked. left.
        now rewrite (completionRatio_quotient cmi ct Hlen).
      - apply crossSegment_blocked. now right.
      - apply crossSegment_no_hit. intros nt j Hnt Hj.
        rewrite hitsAt_caseless. now apply (Hmiss nt j). }
    rewrite Hcross. reflexivity.
Qed.

Lemma cross_segment_jump_witness :
  matchingEffect (segmentTokensMap scriptHello) TELEPROMPTER
    (ofAscii "Hello world. TESTING one") (mkPanelState 0 2 11 (Some AutoAdvanceTimer))
    = Normal (mkPanelState 1 1 24 None) /\
  matchLoop (segmentTokensMap scriptHello) 0 (parseSegmentToTokens (ofAscii "Hello world."))
    ([ofAscii "Hello"] ++ ofAscii "Testing" :: [ofAscii "one"]) 0
  = matchLoop (segmentTokensMap scriptHello) 0 (parseSegmentToTokens (ofAscii "Hello world."))
      [ofAscii "one"] 1.
Proof.
  assert (Hwin : forall cmi p, 0 <= cmi -> cmi <= p <= cmi + 4 ->
            p = cmi \/ p = cmi + 1 \/ p = cmi + 2 \/ p = cmi + 3 \/ p = cmi + 4)
    by (intros; lia).
  split.
  - refine (proj1 (cross_segment_jump (segmentTokensMap scriptHello)
                     (ofAscii "Hello world. TESTING one")
                     (mkPanelState 0 2 11 (Some AutoAdvanceTimer))
                     (parseSegmentToTokens (ofAscii "Hello world."))
                     [] (ofAscii "TESTING") [ofAscii "one"] 2 _ _ _ _ _ _)
                  (parseSegmentToTokens (ofAscii "Testing one two.")) 0 _ _ _ _ _ _).
    + vm_compute; reflexivity.
    + vm_compute; reflexivity.
    + vm_compute; reflexivity.
    + vm_compute; discriminate.
    + vm_compute; reflexivity.
    + intros p Hp.
      destruct (Hwin 2 p ltac:(lia) Hp) as [-> | [-> | [-> | [-> | ->]]]]; reflexivity.
    + vm_compute; reflexivity.
    + vm_compute; reflexivity.
    + vm_compute; reflexivity.
    + lia.
    + vm_compute; reflexivity.
    + intros i Hi; lia.
  - refine (proj2 (cross_segment_jump (segmentTokensMap scriptHello)
                     (ofAscii "Hello Testing one") initialState
                     (parseSegmentToTokens (ofAscii "Hello world."))
                     [ofAscii "Hello"] (ofAscii "Testing") [ofAscii "one"] 1 _ _ _ _ _ _)
                  (or_introl (conj _ _))).
    + vm_compute; reflexivity.
    + vm_compute; reflexivity.
    + vm_compute; reflexivity.
    + vm_compute; discriminate.
    + vm_compute; reflexivity.
    + intros p Hp.
      destruct (Hwin 1 p ltac:(lia) Hp) as [-> | [-> | [-> | [-> | ->]]]]; reflexivity.
    + vm_compute; reflexivity.
    + vm_compute; discriminate.
Defined.

(** ** The outcomes of the matching effect *)

(** From a state whose matched count is not negative wherever a segment is
    active, the matching effect completes, in one of four ways: nothing
    changes; only the cursor moves; the loop ends and the matched count is
    stored; a jump is taken. *)
Lemma matchingEffect_cases (tokensMap : list (list jsString)) (feature : AiFeature)
    (transcript : jsString) (st : PanelState) :
  (forall ct, lookupZ tokensMap (activeSegmentIndex st) = Some ct ->
              0 <= matchedWordCount st) ->
  matchingEffect tokensMap feature transcript st = Normal st
  \/ (lastTranscriptLength st < len transcript /\
      matchingEffect tokensMap feature transcript st =
        Normal (mkPanelState (activeSegmentIndex st) (matchedWordCount st)
                             (len transcript) (scrollTimeout st)))
  \/ (lastTranscriptLength st < len transcript /\
      exists ct cmi,
        lookupZ tokensMap (activeSegmentIndex st) = Some ct /\
        matchedWordCount st <= cmi <= Z.max (matchedWordCount st) (len ct) /\
        matchingEffect tokensMap feature transcript st =
          Normal (afterLoop (mkPanelState (activeSegmentIndex st) (matchedWordCount st)
                                          (len transcript) (scrollTimeout st)) ct cmi))
  \/ (lastTranscriptLength st < len transcript /\
      exists nt j,
        activeSegmentIndex st < segmentsLength tokensMap - 1 /\
        lookupZ tokensMap (activeSegmentIndex st + 1) = Some nt /\
        0 <= j < Z.min 3 (len nt) /\
        matchingEffect tokensMap feature transcript st =
          Normal (mkPanelState (activeSegmentIndex st + 1) (j + 1) (len transcript) None)).
Proof.
  intros Hmwc. unfold matchingEffect.
  destruct (isTeleprompter feature); [|now left]. cbn [negb].
  destruct (Z.leb_spec (len transcript) (lastTranscriptLength st)) as [Hle | Hgrow];
    [now left|].
  destruct (len (parseSegmentToTokens (slice transcript (lastTranscriptLength st))) =? 0);
    [right; left; now split|].
  destruct (lookupZ tokensMap (activeSegmentIndex st)) as [ct|] eqn:Hct;
    [|right; left; now split].
  destruct (matchLoop_total tokensMap (activeSegmentIndex st) ct
              (parseSegmentToTokens (slice transcript (lastTranscriptLength st)))
              (matchedWordCount st) (Hmwc ct eq_refl)) as [r [Hr Hres]].
  rewrite Hr. cbn [bind]. destruct r as [cmi | j].
  - right; right; left. split; [exact Hgrow|]. exists ct, cmi. now repeat split.
  - right; right; right. split; [exact Hgrow|].
    destruct Hres as [Hnext [nt [Hnt Hj]]]. exists nt, j.
    repeat split; try assumption; lia.
Qed.

(** The cursor never moves back, and the matched count stays non-negative. *)
Lemma matchingEffect_cursor (tokensMap : list (list jsString)) (feature : AiFeature)
    (transcript : jsString) (st : PanelState) :
  0 <= matchedWordCount st ->
  exists st', matchingEffect tokensMap feature transcript st = Normal st' /\
              lastTranscriptLength st <= lastTranscriptLength st' /\
              0 <= matchedWordCount st'.
Proof.
  intros Hmwc.
  destruct (matchingEffect_cases tokensMap feature transcript st (fun _ _ => Hmwc))
    as [H | [[Hg H] | [[Hg [ct [cmi [_ [Hc H]]]]] | [Hg [nt [j [_ [_ [Hj H]]]]]]]]];
    rewrite H; eexists; (split; [reflexivity|]); simpl; lia.
Qed.

(** ** Transcript cursor (C3) *)

(** C3.  A call of the matching effect whose transcript is no longer than the
    recorded [lastTranscriptLength] completes without throwing and changes
    nothing: the active segment, the matched count, the cursor and the pending
    timer are as before.  Consequently, over any sequence of transcript
    updates from a state with a non-negative matched count, every call
    completes and the cursor at the end is not below the cursor at the
    start. *)
Theorem transcript_cursor_monotone (tokensMap : list (list jsString)) :
  (forall feature transcript st,
     len transcript <= lastTranscriptLength st ->
     matchingEffect tokensMap feature transcript st = Normal st)
  /\
  (forall transcripts st,
     0 <= matchedWordCount st ->
     exists st', run tokensMap st (List.map TranscriptUpdate transcripts) = Normal st' /\
                 lastTranscriptLength st <= lastTranscriptLength st').
Proof.
  split.
  - intros feature transcript st Hle. unfold matchingEffect.
    destruct (isTeleprompter feature); [|reflexivity]. cbn [negb].
    destruct (Z.leb_spec (len transcript) (lastTranscriptLength st)); [reflexivity | lia].
  - induction transcripts as [|t ts IH]; intros st Hmwc; cbn [List.map run].
    + exists st. split; [reflexivity | lia].
    + cbn [step].
      destruct (matchingEffect_cursor tokensMap TELEPROMPTER t st Hmwc)
        as [st1 [H1 [Hcur Hmwc1]]].
      rewrite H1. cbn [bind].
      destruct (IH st1 Hmwc1) as [st' [Hrun Hcur']].
      exists st'. split; [exact Hrun | lia].
Qed.

Lemma transcript_cursor_monotone_witness :
  matchingEffect (segmentTokensMap scriptHello) TELEPROMPTER saidHelloWorld
    (mkPanelState 1 1 20 None) = Normal (mkPanelState 1 1 20 None) /\
  exists st',
    run (segmentTokensMap scriptHello) initialState
      (List.map TranscriptUpdate [saidHelloWorldTesting; saidHelloWorld]) = Normal st' /\
    lastTranscriptLength initialState <= lastTranscriptLength st'.
Proof.
  split.
  - apply (proj1 (transcript_cursor_monotone (segmentTokensMap scriptHello))).
    vm_compute. discriminate.
  - apply (proj2 (transcript_cursor_monotone (segmentTokensMap scriptHello))).
    simpl. lia.
Defined.

(** ** Debounced auto-advance (C2) *)




(** ** The invariant of the position (C6) *)

Section Invariant.

Variable tokensMap : list (list jsString).

Lemma invariant_indep (st st' : PanelState) :
  activeSegmentIndex st' = activeSegmentIndex st ->
  matchedWordCount st' = matchedWordCount st ->
  invariant tokensMap st -> invariant tokensMap st'.
Proof. unfold invariant. intros -> ->. tauto. Qed.

(** A position at the start of a segment, or at the end of the script. *)
Lemma invariant_fresh (i l : Z) (t : option timerKind) :
  0 <= i <= segmentsLength tokensMap ->
  invariant tokensMap (mkPanelState i 0 l t).
Proof.
  intros Hi. split; [exact Hi|]. cbn. intros Hlt.
  destruct (lookupZ_in_range tokensMap i) as [tokens Htokens]; [lia|].
  exists tokens. split; [exact Htokens|]. pose proof (len_nonneg tokens). lia.
Qed.

Lemma handleManualScroll_invariant (d : direction) (st : PanelState) :
  1 <= segmentsLength tokensMap ->
  invariant tokensMap st -> invariant tokensMap (handleManualScroll tokensMap d st).
Proof.
  intros Hlen Hinv. unfold handleManualScroll.
  set (nextIdx := match d with
                  | next => Z.min (activeSegmentIndex st + 1) (segmentsLength tokensMap - 1)
                  | prev => Z.max (activeSegmentIndex st - 1) 0
                  end).
  assert (Hrange : 0 <= nextIdx <= segmentsLength tokensMap).
  { destruct Hinv as [Hidx _]. subst nextIdx. destruct d; lia. }
  destruct (Z.eqb_spec nextIdx (activeSegmentIndex st)) as [Hsame | Hmoved].
  - eapply invariant_indep; [ | | exact Hinv]; cbn; congruence.
  - now apply invariant_fresh.
Qed.

Lemma timerFires_invariant (st : PanelState) :
  invariant tokensMap st -> invariant tokensMap (timerFires tokensMap st).
Proof.
  intros Hinv. unfold timerFires.
  destruct (scrollTimeout st) as [[|]|]; [| |exact Hinv].
  - apply invariant_fresh. destruct Hinv as [Hidx _]. lia.
  - eapply invariant_indep; [ | | exact Hinv]; reflexivity.
Qed.

Lemma matchingEffect_invariant (feature : AiFeature) (transcript : jsString)
    (st : PanelState) :
  invariant tokensMap st ->
  exists st', matchingEffect tokensMap feature transcript st = Normal st' /\
              invariant tokensMap st'.
Proof.
  intros Hinv.
  assert (Hmwc : forall ct, lookupZ tokensMap (activeSegmentIndex st) = Some ct ->
                            0 <= matchedWordCount st <= len ct).
  { intros ct Hct. pose proof (lookupZ_Some_range _ _ _ Hct) as Hr.
    destruct Hinv as [_ Hin]. destruct Hin as [tokens [Htokens Hm]].
    - unfold segmentsLength. lia.
    - congruence. }
  destruct (matchingEffect_cases tokensMap feature transcript st
              (fun ct Hct => proj1 (Hmwc ct Hct)))
    as [H | [[_ H] | [[_ [ct [cmi [Hct [Hc H]]]]] | [_ [nt [j [Hnext [Hnt [Hj H]]]]]]]]];
    rewrite H; eexists; (split; [reflexivity|]).
  - exact Hinv.
  - eapply invariant_indep; [ | | exact Hinv]; reflexivity.
  - destruct Hinv as [Hidx _]. split; [exact Hidx|]. cbn. intros _.
    exists ct. split; [exact Hct|]. specialize (Hmwc ct Hct). lia.
  - destruct Hinv as [Hidx _]. split; cbn.
    + unfold segmentsLength in *. lia.
    + intros _. exists nt. split; [exact Hnt|]. lia.
Qed.

(** On a script with at least one segment no event throws from a state that
    satisfies the invariant, and the invariant holds afterwards. *)
Lemma step_invariant (st : PanelState) (ev : event) :
  1 <= segmentsLength tokensMap ->
  invariant tokensMap st ->
  exists st', step tokensMap st ev = Normal st' /\ invariant tokensMap st'.
Proof.
  intros Hlen Hinv. destruct ev as [transcript | | d | deltaY | ]; cbn [step].
  - now apply matchingEffect_invariant.
  - eexists; split; [reflexivity|]. now apply timerFires_invariant.
  - eexists; split; [reflexivity|]. now apply handleManualScroll_invariant.
  - eexists; split; [reflexivity|]. unfold handleWheel. cbn [isTeleprompter negb].
    destruct (scrollTimeout st); [exact Hinv|].
    destruct (Z.abs deltaY >? 20); [|exact Hinv].
    eapply invariant_indep;
      [ | | apply (handleManualScroll_invariant
                     (if deltaY >? 0 then next else prev) st Hlen Hinv)];
      reflexivity.
  - eexists; split; [reflexivity|]. apply invariant_fresh. unfold segmentsLength in *. lia.
Qed.

End Invariant.

(** C6 fails on the empty script.  Its segment table is empty, and the
    manual advance from the initial state computes
    [Math.min(0 + 1, segments.length - 1) = -1]: the state with
    [activeSegmentIndex = -1] is reachable and breaks
    [0 <= activeSegmentIndex]. *)
Theorem invariant_broken_on_empty_script :
  segmentTokensMap [] = [] /\
  step (segmentTokensMap []) initialState (ManualScroll next)
    = Normal (mkPanelState (-1) 0 0 None) /\
  reachable (segmentTokensMap []) (mkPanelState (-1) 0 0 None) /\
  ~ invariant (segmentTokensMap []) (mkPanelState (-1) 0 0 None).
Proof.
  split; [reflexivity|]. split; [reflexivity|]. split.
  - apply (reachable_step _ initialState (ManualScroll next));
      [apply reachable_initial | reflexivity].
  - intros [[Hlo _] _]. cbn in Hlo. lia.
Qed.

(** ** Manual navigation in the terminal state (C10) *)

(** C10.  On a script with at least one segment, the manual advance in the
    terminal state [activeSegmentIndex = segments.length] moves the index back
    to [segments.length - 1] and resets the matched count to 0; and from any
    index up to [segments.length], a manual advance or retreat ends strictly
    below [segments.length]: manual navigation never puts or keeps the
    component in the terminal state. *)
Theorem manual_advance_from_terminal (tokensMap : list (list jsString)) (st : PanelState) :
  1 <= segmentsLength tokensMap ->
  (activeSegmentIndex st = segmentsLength tokensMap ->
   handleManualScroll tokensMap next st =
     mkPanelState (segmentsLength tokensMap - 1) 0
                  (lastTranscriptLength st) (scrollTimeout st))
  /\
  (forall d, activeSegmentIndex st <= segmentsLength tokensMap ->
     activeSegmentIndex (handleManualScroll tokensMap d st) < segmentsLength tokensMap).
Proof.
  intros Hlen. split.
  - intros Hterm. unfold handleManualScroll. rewrite Hterm.
    replace (Z.min (segmentsLength tokensMap + 1) (segmentsLength tokensMap - 1))
      with (segmentsLength tokensMap - 1) by lia.
    destruct (Z.eqb_spec (segmentsLength tokensMap - 1) (segmentsLength tokensMap));
      [lia | reflexivity].
  - intros d Hidx. unfold handleManualScroll. cbn [activeSegmentIndex].
    destruct d; lia.
Qed.

Lemma manual_advance_from_terminal_witness :
  handleManualScroll (segmentTokensMap scriptHello) next (mkPanelState 2 0 29 None)
    = mkPanelState 1 0 29 None /\
  activeSegmentIndex
    (handleManualScroll (segmentTokensMap scriptHello) prev (mkPanelState 2 0 29 None)) < 2.
Proof.
  destruct (manual_advance_from_terminal (segmentTokensMap scriptHello)
              (mkPanelState 2 0 29 None)) as [Hadv Hall].
  - vm_compute; discriminate.
  - split.
    + apply Hadv. reflexivity.
    + apply (Hall prev). vm_compute; discriminate.
Defined.

(** ** Manual navigation and the pending timer (C4) *)

(** C4 fails.  [handleManualScroll] never touches [scrollTimeoutRef]: a
    pending timer is still pending after a manual advance or retreat.  On the
    script [a. b. c.], after the transcript [a] the debounce is pending at
    [(0, 1)]; a manual advance moves to [(1, 0)] and leaves it pending; when
    it fires it advances again, to segment 2, a line the speaker never
    reached. *)
Theorem manual_scroll_keeps_timer :
  (forall tokensMap d st,
     scrollTimeout (handleManualScroll tokensMap d st) = scrollTimeout st) /\
  run (segmentTokensMap scriptAbc) initialState [TranscriptUpdate saidA]
    = Normal (mkPanelState 0 1 1 (Some AutoAdvanceTimer)) /\
  run (segmentTokensMap scriptAbc) initialState [TranscriptUpdate saidA; ManualScroll next]
    = Normal (mkPanelState 1 0 1 (Some AutoAdvanceTimer)) /\
  run (segmentTokensMap scriptAbc) initialState
    [TranscriptUpdate saidA; ManualScroll next; TimerFires]
    = Normal (mkPanelState 2 0 1 None).
Proof.
  split; [reflexivity|]. repeat split; vm_compute; reflexivity.
Qed.

(** ** Tokens after a jump (C5) *)

(** C5 fails.  The cursor is set to the full length of the transcript before
    the loop runs, so the tokens that follow the jump token are never seen
    again.  On the script [one two. three four five.] the transcript
    [one two three four] jumps on [three] to [(1, 1)] with the cursor at 18;
    the same transcript again changes nothing, and a transcript extended by a
    space only moves the cursor: [four] is never matched, although matching it
    against the new segment would give a matched count of 2. *)
Theorem jump_drops_remaining_tokens :
  parseSegmentToTokens saidOneToFour
    = [ofAscii "one"; ofAscii "two"; ofAscii "three"; ofAscii "four"] /\
  matchingEffect (segmentTokensMap scriptNumbers) TELEPROMPTER saidOneToFour initialState
    = Normal (mkPanelState 1 1 18 None) /\
  matchingEffect (segmentTokensMap scriptNumbers) TELEPROMPTER saidOneToFour
    (mkPanelState 1 1 18 None) = Normal (mkPanelState 1 1 18 None) /\
  matchingEffect (segmentTokensMap scriptNumbers) TELEPROMPTER saidOneToFourSpace
    (mkPanelState 1 1 18 None) = Normal (mkPanelState 1 1 19 None) /\
  matchLoop (segmentTokensMap scriptNumbers) 1
    [ofAscii "three"; ofAscii "four"; ofAscii "five"] [ofAscii "four"] 1
    = Normal (LoopEnd 2).
Proof. repeat split; vm_compute; reflexivity. Qed.

(** ** The two-segment Chinese script (C9) *)

(** C9, as amended.  The script segments to the two given segments; segment
    0 has four tokens, one per ideograph (the full stop U+3002 is no token).
    On the transcript delivered in one update, the first four spoken tokens
    bring the running index to 4 of 4, the fifth takes the jump at offset 0,
    and the call ends in segment 1 with one token matched. *)
Theorem chinese_script_jump :
  segments scriptChinese
    = [[20320; 22909; 19990; 30028; 12290];
       [20170; 22825; 22825; 27668; 24456; 22909; 12290]] /\
  segmentTokensMap scriptChinese
    = [[[20320]; [22909]; [19990]; [30028]];
       [[20170]; [22825]; [22825]; [27668]; [24456]; [22909]]] /\
  matchLoop (segmentTokensMap scriptChinese) 0 [[20320]; [22909]; [19990]; [30028]]
    [[20320]; [22909]; [19990]; [30028]] 0 = Normal (LoopEnd 4) /\
  matchLoop (segmentTokensMap scriptChinese) 0 [[20320]; [22909]; [19990]; [30028]]
    (parseSegmentToTokens saidChinese) 0 = Normal (LoopJump 0) /\
  matchingEffect (segmentTokensMap scriptChinese) TELEPROMPTER saidChinese initialState
    = Normal (mkPanelState 1 1 7 None).
Proof. repeat split; vm_compute; reflexivity. Qed.

(** C9, as stated, fails: segment 0 has four tokens, not five. *)
Lemma chinese_script_counterexample :
  lookupZ (segmentTokensMap scriptChinese) 0
    = Some [[20320]; [22909]; [19990]; [30028]] /\
  len [[20320]; [22909]; [19990]; [30028]] <> 5.
Proof. split; [reflexivity | vm_compute; discriminate]. Qed.

(** ** Segmenter (C8) *)

Lemma concat_nonempty (l : list jsString) :
  concat (filter (fun s => len s >? 0) l) = concat l.
Proof.
  induction l as [|s l IH]; [reflexivity|]. cbn [filter].
  destruct s as [|c s]; [exact IH|].
  replace (len (c :: s) >? 0) with true
    by (symmetry; apply Z.gtb_lt; unfold len; cbn [length]; lia).
  cbn [concat]. now rewrite IH.
Qed.

Lemma nonSpace_dropSpaces (s : jsString) :
  filter nonSpace (dropSpaces s) = filter nonSpace s.
Proof.
  induction s as [|c s IH]; [reflexivity|]. cbn [dropSpaces filter].
  unfold nonSpace at 2. destruct (isSpace c) eqn:E; cbn [negb]; [exact IH|].
  cbn [filter]. unfold nonSpace at 1. now rewrite E.
Qed.

Lemma nonSpace_trim (s : jsString) :
  filter nonSpace (trim s) = filter nonSpace s.
Proof.
  unfold trim. rewrite filter_rev, nonSpace_dropSpaces, filter_rev, rev_involutive.
  apply nonSpace_dropSpaces.
Qed.

Lemma nonSpace_concat_trim (l : list jsString) :
  filter nonSpace (concat (List.map trim l)) = filter nonSpace (concat l).
Proof.
  induction l as [|s l IH]; [reflexivity|].
  cbn [List.map concat]. now rewrite !filter_app, nonSpace_trim, IH.
Qed.

(** Joining the pieces of [split('|')] gives the text without its pipes. *)
Lemma concat_splitPipe (cur s : jsString) :
  concat (splitPipe cur s) = cur ++ filter (fun c => negb (c =? pipe)) s.
Proof.
  revert cur; induction s as [|c s IH]; intros cur; cbn [splitPipe filter].
  - cbn. now rewrite !app_nil_r.
  - destruct (c =? pipe); cbn [negb concat].
    + now rewrite IH.
    + rewrite IH, <- app_assoc. reflexivity.
Qed.

Lemma filter_filter_and (f g : codeUnit -> bool) (s : jsString) :
  filter f (filter g s) = filter (fun c => f c && g c) s.
Proof.
  induction s as [|c s IH]; [reflexivity|]. cbn [filter].
  destruct (g c); cbn [filter]; rewrite ?andb_true_r, ?andb_false_r;
    [destruct (f c)|]; now rewrite IH.
Qed.

(** The replacement drops white space only and inserts pipes only. *)
Lemma kept_replaceTerminals (skipping : bool) (s : jsString) :
  filter keptBySegmenter (replaceTerminals skipping s) = filter keptBySegmenter s.
Proof.
  revert skipping; induction s as [|c s IH]; intros skipping; [reflexivity|].
  cbn [replaceTerminals].
  destruct (skipping && isSpace c) eqn:Eskip.
  - apply andb_true_iff in Eskip as [_ Hsp]. cbn [filter].
    unfold keptBySegmenter at 2, nonSpace. rewrite Hsp. cbn. apply IH.
  - destruct (isTerminal c); cbn [filter].
    + replace (keptBySegmenter pipe) with false by reflexivity.
      rewrite IH. reflexivity.
    + rewrite IH. reflexivity.
Qed.

(** What the segmenter does keep: for every script the non-whitespace
    characters of its joined segments are the characters of the script that
    are neither white space nor a pipe, each exactly once and in the order of
    the script.  The pipe is the only character that is lost. *)
Theorem segments_reconstruct (teleprompterScript : jsString) :
  nonWhitespaceOf (concat (segments teleprompterScript))
  = filter keptBySegmenter teleprompterScript.
Proof.
  unfold nonWhitespaceOf, segments.
  destruct teleprompterScript as [|c s]; [reflexivity|].
  rewrite concat_nonempty, nonSpace_concat_trim, concat_splitPipe.
  cbn [app]. rewrite filter_filter_and. apply kept_replaceTerminals.
Qed.

(** C8 fails on a script that contains a pipe.  The segmenter marks the end
    of a unit with a pipe of its own and splits at every pipe, so a pipe typed
    in the script is taken for such a mark: the script [a|b] is split into
    [a] and [b], and its pipe, a non-whitespace character of the input, is in
    no segment. *)
Lemma segments_reconstruct_counterexample :
  segments scriptWithPipe = [ofAscii "a"; ofAscii "b"] /\
  nonWhitespaceOf (concat (segments scriptWithPipe)) <> nonWhitespaceOf scriptWithPipe.
Proof. split; [reflexivity | vm_compute; discriminate]. Qed.

(** ** Tokenizer: shape of the tokens *)

Lemma isCJK_not_alnum (c : codeUnit) : isCJK c = true -> isAlnum c = false.
Proof.
  unfold isCJK, isAlnum, inRange. intros H.
  repeat match goal with
         | H : _ || _ = true |- _ => apply orb_true_iff in H as [H | H]
         | H : _ && _ = true |- _ => apply andb_true_iff in H as [? ?]
         | H : (_ <=? _) = true |- _ => apply Z.leb_le in H
         end;
    repeat (apply orb_false_iff; split); apply andb_false_iff;
    rewrite !Z.leb_gt; lia.
Qed.

Lemma flushRun_concat (run : jsString) : concat (flushRun run) = run.
Proof. destruct run; [reflexivity|]. cbn. now rewrite app_nil_r. Qed.

Lemma wellFormed_run (run : jsString) :
  forallb isAlnum run = true -> Forall (fun t => wellFormedToken t = true) (flushRun run).
Proof.
  intros Hrun. destruct run as [|c [|d run]]; cbn [flushRun]; constructor;
    try constructor.
  - cbn in Hrun. unfold wellFormedToken, isTokenChar.
    apply andb_true_iff in Hrun as [-> _]. reflexivity.
  - exact Hrun.
Qed.

Lemma scanTokens_wellFormed (s : jsString) :
  forall run, forallb isAlnum run = true ->
  Forall (fun t => wellFormedToken t = true) (scanTokens run s).
Proof.
  induction s as [|c s IH]; intros run Hrun; cbn [scanTokens].
  - now apply wellFormed_run.
  - destruct (isAlnum c) eqn:Ea.
    + apply IH. rewrite forallb_app, Hrun. cbn. now rewrite Ea.
    + destruct (isCJK c) eqn:Ec.
      * apply Forall_app. split; [now apply wellFormed_run|].
        constructor; [|now apply IH].
        unfold wellFormedToken, isTokenChar. now rewrite Ec, orb_true_r.
      * apply Forall_app. split; [now apply wellFormed_run | now apply IH].
Qed.

Lemma scanTokens_concat (s : jsString) :
  forall run, concat (scanTokens run s) = run ++ filter isTokenChar s.
Proof.
  induction s as [|c s IH]; intros run; cbn [scanTokens filter].
  - now rewrite flushRun_concat, app_nil_r.
  - unfold isTokenChar at 1. destruct (isAlnum c) eqn:Ea; cbn [orb].
    + rewrite IH, <- app_assoc. reflexivity.
    + destruct (isCJK c) eqn:Ec.
      * rewrite concat_app, flushRun_concat. cbn [concat]. rewrite IH. reflexivity.
      * rewrite concat_app, flushRun_concat, IH. reflexivity.
Qed.

(** A run of alphanumeric code units is scanned into one token. *)
Lemma scanTokens_alnum (t : jsString) :
  forall run, forallb isAlnum t = true -> scanTokens run t = flushRun (run ++ t).
Proof.
  induction t as [|c t IH]; intros run Ht; cbn [scanTokens].
  - now rewrite app_nil_r.
  - cbn in Ht. apply andb_true_iff in Ht as [Hc Ht]. rewrite Hc.
    rewrite IH by exact Ht. now rewrite <- app_assoc.
Qed.

(** A code unit that is no token character ends the current run. *)
Lemma scanTokens_separator (a : jsString) (sep : codeUnit) (b : jsString) :
  isTokenChar sep = false ->
  forall run, scanTokens run (a ++ sep :: b) = scanTokens run a ++ scanTokens [] b.
Proof.
  intros Hsep. apply orb_false_iff in Hsep as [Ha Hc].
  induction a as [|c a IH]; intros run; cbn [app scanTokens].
  - now rewrite Ha, Hc.
  - destruct (isAlnum c); [apply IH|].
    destruct (isCJK c); rewrite IH; [|now rewrite app_assoc].
    rewrite <- app_assoc. reflexivity.
Qed.

(** X1.  Every token of [parseSegmentToTokens] is a non-empty run of
    alphanumeric code units or one CJK code unit, and the tokens joined are
    the token characters of the text, in order, each exactly once: the
    tokenizer drops everything else and nothing more. *)
Theorem tokens_shape_and_content (text : jsString) :
  Forall (fun t => wellFormedToken t = true) (parseSegmentToTokens text) /\
  concat (parseSegmentToTokens text) = filter isTokenChar text.
Proof.
  split.
  - now apply scanTokens_wellFormed.
  - apply (scanTokens_concat text []).
Qed.

Lemma filter_nil_iff (f : codeUnit -> bool) (s : jsString) :
  filter f s = [] <-> forall c, In c s -> f c = false.
Proof.
  induction s as [|c s IH]; cbn [filter]; [split; [intros _ c [] | reflexivity]|].
  destruct (f c) eqn:E; split.
  - discriminate.
  - intros H. specialize (H c (or_introl eq_refl)). congruence.
  - intros H d [<- | Hd]; [exact E | now apply IH].
  - intros H. apply IH. intros d Hd. apply H. now right.
Qed.

Lemma wellFormed_nonempty_concat (l : list jsString) :
  Forall (fun t => wellFormedToken t = true) l -> concat l = [] -> l = [].
Proof.
  intros Hwf Hnil. destruct l as [|t l]; [reflexivity|].
  inversion Hwf as [|t' l' Ht _]; subst.
  destruct t; [discriminate Ht | discriminate Hnil].
Qed.

(** X2.  A text has no tokens exactly when none of its code units is
    alphanumeric or CJK: punctuation, white space and symbols alone never
    produce a spoken token, and one token character always does. *)
Theorem tokens_empty_iff (text : jsString) :
  parseSegmentToTokens text = [] <-> forall c, In c text -> isTokenChar c = false.
Proof.
  pose proof (scanTokens_concat text []) as Hc. cbn [app] in Hc.
  rewrite <- filter_nil_iff, <- Hc.
  split.
  - unfold parseSegmentToTokens. now intros ->.
  - apply wellFormed_nonempty_concat. now apply scanTokens_wellFormed.
Qed.

Lemma wellFormed_retokenize (t : jsString) :
  wellFormedToken t = true -> parseSegmentToTokens t = [t].
Proof.
  unfold parseSegmentToTokens. destruct t as [|c [|d t]]; [discriminate| |].
  - unfold wellFormedToken, isTokenChar. intros H. cbn [scanTokens].
    destruct (isAlnum c) eqn:Ea; [reflexivity|].
    cbn in H. now rewrite H.
  - intros H. cbn [wellFormedToken] in H. now rewrite scanTokens_alnum.
Qed.

(** X3.  Tokenizing a token gives back that token alone: for every token [t]
    of a text, [parseSegmentToTokens t = [t]]; hence tokenizing the tokens of
    a text one by one and joining the results gives the tokens of the text. *)
Theorem tokens_retokenize (text : jsString) :
  (forall t, In t (parseSegmentToTokens text) -> parseSegmentToTokens t = [t]) /\
  flat_map parseSegmentToTokens (parseSegmentToTokens text) = parseSegmentToTokens text.
Proof.
  pose proof (scanTokens_wellFormed text [] eq_refl) as Hwf.
  fold (parseSegmentToTokens text) in Hwf.
  split.
  - intros t Ht. apply wellFormed_retokenize.
    rewrite Forall_forall in Hwf. now apply Hwf.
  - induction Hwf as [|t l Ht _ IH]; [reflexivity|].
    cbn [flat_map]. rewrite wellFormed_retokenize by exact Ht. now rewrite IH.
Qed.

(** X4.  A code unit that is neither alphanumeric nor CJK separates tokens:
    the tokens of [a ++ sep :: b] are the tokens of [a] followed by the
    tokens of [b], so no token straddles the separator. *)
Theorem tokens_split_at_separator (a : jsString) (sep : codeUnit) (b : jsString) :
  isTokenChar sep = false ->
  parseSegmentToTokens (a ++ sep :: b) = parseSegmentToTokens a ++ parseSegmentToTokens b.
Proof. intros Hsep. now apply scanTokens_separator. Qed.

Lemma tokens_split_at_separator_witness :
  parseSegmentToTokens (ofAscii "Hello" ++ 32 :: ofAscii "world")
  = parseSegmentToTokens (ofAscii "Hello") ++ parseSegmentToTokens (ofAscii "world").
Proof. apply tokens_split_at_separator. reflexivity. Defined.

(** ** Case does not matter *)

Ltac class_false :=
  repeat (apply orb_false_iff; split);
  first [ apply andb_false_iff; rewrite !Z.leb_gt; lia
        | apply Z.eqb_neq; lia ].

Lemma lowerUnit_idempotent (c : codeUnit) : lowerUnit (lowerUnit c) = lowerUnit c.
Proof.
  destruct (lowerUnit_cases c) as [[Hc ->] | [Hc ->]].
  - destruct (lowerUnit_cases (c + 32)) as [[Hc' _] | [_ ->]]; [lia | reflexivity].
  - destruct (lowerUnit_cases c) as [[Hc' _] | [_ ->]]; [lia | reflexivity].
Qed.

Lemma isAlnum_lowerUnit (c : codeUnit) : isAlnum (lowerUnit c) = isAlnum c.
Proof.
  destruct (lowerUnit_cases c) as [[Hc ->] | [_ ->]]; [|reflexivity].
  transitivity true; [|symmetry]; unfold isAlnum, inRange.
  - replace (97 <=? c + 32) with true by (symmetry; apply Z.leb_le; lia).
    replace (c + 32 <=? 122) with true by (symmetry; apply Z.leb_le; lia).
    reflexivity.
  - replace (65 <=? c) with true by (symmetry; apply Z.leb_le; lia).
    replace (c <=? 90) with true by (symmetry; apply Z.leb_le; lia).
    cbn [andb]. now rewrite orb_true_r.
Qed.

Lemma isCJK_lowerUnit (c : codeUnit) : isCJK (lowerUnit c) = isCJK c.
Proof.
  destruct (lowerUnit_cases c) as [[Hc ->] | [_ ->]]; [|reflexivity].
  transitivity false; [|symmetry]; unfold isCJK, inRange; class_false.
Qed.

Lemma isSpace_lowerUnit (c : codeUnit) : isSpace (lowerUnit c) = isSpace c.
Proof.
  destruct (lowerUnit_cases c) as [[Hc ->] | [_ ->]]; [|reflexivity].
  transitivity false; [|symmetry]; unfold isSpace, inRange; class_false.
Qed.

Lemma isTerminal_lowerUnit (c : codeUnit) : isTerminal (lowerUnit c) = isTerminal c.
Proof.
  destruct (lowerUnit_cases c) as [[Hc ->] | [_ ->]]; [|reflexivity].
  transitivity false; [|symmetry]; unfold isTerminal; class_false.
Qed.

Lemma isPipe_lowerUnit (c : codeUnit) : (lowerUnit c =? pipe) = (c =? pipe).
Proof.
  destruct (lowerUnit_cases c) as [[Hc ->] | [_ ->]]; [|reflexivity].
  transitivity false; [|symmetry]; unfold pipe; apply Z.eqb_neq; lia.
Qed.

Lemma toLowerCase_idempotent (s : jsString) : toLowerCase (toLowerCase s) = toLowerCase s.
Proof.
  unfold toLowerCase. rewrite map_map. apply map_ext. exact lowerUnit_idempotent.
Qed.

Lemma len_map {A B : Type} (f : A -> B) (l : list A) : len (List.map f l) = len l.
Proof. unfold len. now rewrite length_map. Qed.

Lemma lookupZ_map {A B : Type} (f : A -> B) (l : list A) (i : Z) :
  lookupZ (List.map f l) i = option_map f (lookupZ l i).
Proof. unfold lookupZ. destruct (i <? 0); [reflexivity | apply nth_error_map]. Qed.

Lemma lowerAt_lowerTokens (tokens : list jsString) (i : Z) :
  lowerAt (lowerTokens tokens) i = lowerAt tokens i.
Proof.
  unfold lowerAt, lowerTokens. rewrite lookupZ_map.
  destruct (lookupZ tokens i); cbn; [now rewrite toLowerCase_idempotent | reflexivity].
Qed.

Lemma localLoop_lowerTokens (offsets : list Z) (ct : list jsString) (cmi : Z) (sc : jsString) :
  localLoop offsets (lowerTokens ct) cmi sc = localLoop offsets ct cmi sc.
Proof.
  induction offsets as [|o more IH]; [reflexivity|]. cbn [localLoop].
  unfold lowerTokens at 1. rewrite len_map, lowerAt_lowerTokens, IH. reflexivity.
Qed.

Lemma jumpLoop_lowerTokens (js : list Z) (nt : list jsString) (sc : jsString) :
  jumpLoop js (lowerTokens nt) sc = jumpLoop js nt sc.
Proof.
  induction js as [|j more IH]; [reflexivity|]. cbn [jumpLoop].
  unfold lowerTokens at 1. rewrite len_map, lowerAt_lowerTokens, IH. reflexivity.
Qed.

Lemma ratioExceeds_lowerTokens (cmi : Z) (ct : list jsString) :
  ratioExceeds cmi (lowerTokens ct) = ratioExceeds cmi ct.
Proof. unfold ratioExceeds, completionRatio, lowerTokens. now rewrite len_map. Qed.

Lemma crossSegment_lowerTokens (tokensMap : list (list jsString)) (idx : Z)
    (ct : list jsString) (cmi : Z) (sc : jsString) :
  crossSegment (List.map lowerTokens tokensMap) idx (lowerTokens ct) cmi sc
  = crossSegment tokensMap idx ct cmi sc.
Proof.
  unfold crossSegment, segmentsLength.
  rewrite len_map, ratioExceeds_lowerTokens, lookupZ_map.
  destruct (_ && _); [|reflexivity].
  destruct (lookupZ tokensMap (idx + 1)) as [nt|]; cbn [option_map]; [|reflexivity].
  unfold lowerTokens at 1. rewrite len_map, jumpLoop_lowerTokens. reflexivity.
Qed.

Lemma matchLoop_lowerTokens (tokensMap : list (list jsString)) (idx : Z)
    (ct : list jsString) (spoken : list jsString) :
  forall m,
  matchLoop (List.map lowerTokens tokensMap) idx (lowerTokens ct) (lowerTokens spoken) m
  = matchLoop tokensMap idx ct spoken m.
Proof.
  induction spoken as [|token rest IH]; intros m; [reflexivity|].
  cbn [lowerTokens List.map matchLoop]. fold (lowerTokens rest).
  rewrite toLowerCase_idempotent. unfold localMatch.
  rewrite localLoop_lowerTokens, crossSegment_lowerTokens.
  destruct (localLoop lookaheadOffsets ct m (toLowerCase token)) as [found|];
    cbn [bind]; [|reflexivity].
  destruct found as [n|]; [apply IH|].
  destruct (crossSegment tokensMap idx ct m (toLowerCase token)) as [jump|];
    cbn [bind]; [|reflexivity].
  destruct jump; [reflexivity | apply IH].
Qed.

(** Lowercasing commutes with the tokenizer and with the segmenter. *)
Lemma scanTokens_lower (s : jsString) :
  forall run,
  scanTokens (toLowerCase run) (toLowerCase s) = lowerTokens (scanTokens run s).
Proof.
  unfold toLowerCase, lowerTokens.
  induction s as [|c s IH]; intros run; cbn [List.map scanTokens].
  - now destruct run.
  - rewrite isAlnum_lowerUnit, isCJK_lowerUnit.
    destruct (isAlnum c).
    + rewrite <- IH, map_app. reflexivity.
    + destruct (isCJK c); rewrite map_app; cbn [List.map];
        rewrite <- (IH []); now destruct run.
Qed.

Lemma parse_lower (s : jsString) :
  parseSegmentToTokens (toLowerCase s) = lowerTokens (parseSegmentToTokens s).
Proof. apply (scanTokens_lower s []). Qed.

Lemma slice_lower (s : jsString) (start : Z) :
  slice (toLowerCase s) start = toLowerCase (slice s start).
Proof.
  unfold slice, toLowerCase. rewrite len_map. apply skipn_map.
Qed.

Lemma replaceTerminals_lower (s : jsString) :
  forall skipping,
  replaceTerminals skipping (toLowerCase s) = toLowerCase (replaceTerminals skipping s).
Proof.
  unfold toLowerCase. induction s as [|c s IH]; intros skipping; [reflexivity|].
  cbn [List.map replaceTerminals]. rewrite isSpace_lowerUnit, isTerminal_lowerUnit.
  destruct (skipping && isSpace c); [apply IH|].
  destruct (isTerminal c); cbn [List.map]; now rewrite IH.
Qed.

Lemma splitPipe_lower (s : jsString) :
  forall cur,
  splitPipe (toLowerCase cur) (toLowerCase s) = List.map toLowerCase (splitPipe cur s).
Proof.
  unfold toLowerCase. induction s as [|c s IH]; intros cur; [reflexivity|].
  cbn [List.map splitPipe]. rewrite isPipe_lowerUnit.
  destruct (c =? pipe); cbn [List.map].
  - now rewrite <- (IH []).
  - rewrite <- IH, map_app. reflexivity.
Qed.

Lemma dropSpaces_lower (s : jsString) :
  dropSpaces (toLowerCase s) = toLowerCase (dropSpaces s).
Proof.
  unfold toLowerCase. induction s as [|c s IH]; [reflexivity|].
  cbn [List.map dropSpaces]. rewrite isSpace_lowerUnit.
  destruct (isSpace c); [exact IH | reflexivity].
Qed.

Lemma trim_lower (s : jsString) : trim (toLowerCase s) = toLowerCase (trim s).
Proof.
  unfold trim. rewrite dropSpaces_lower.
  unfold toLowerCase at 1. rewrite <- map_rev. fold (toLowerCase (rev (dropSpaces s))).
  rewrite dropSpaces_lower. unfold toLowerCase. now rewrite map_rev.
Qed.

Lemma segments_lower (script : jsString) :
  segments (toLowerCase script) = List.map toLowerCase (segments script).
Proof.
  unfold segments. destruct script as [|c s]; [reflexivity|].
  change (toLowerCase (c :: s)) with (lowerUnit c :: toLowerCase s) at 1.
  cbv iota. change (lowerUnit c :: toLowerCase s) with (toLowerCase (c :: s)).
  rewrite replaceTerminals_lower.
  change (@nil codeUnit) with (toLowerCase []) at 1. rewrite splitPipe_lower.
  generalize (splitPipe [] (replaceTerminals false (c :: s))). intros l.
  induction l as [|p l IH]; [reflexivity|].
  cbn [List.map filter]. rewrite trim_lower. unfold toLowerCase at 1.
  rewrite len_map. destruct (len (trim p) >? 0); cbn [List.map]; now rewrite IH.
Qed.

Lemma segmentTokensMap_lower (script : jsString) :
  segmentTokensMap (toLowerCase script) = List.map lowerTokens (segmentTokensMap script).
Proof.
  unfold segmentTokensMap. rewrite segments_lower, !map_map.
  apply map_ext. exact parse_lower.
Qed.

Lemma matchingEffect_lowerTokens (tokensMap : list (list jsString)) (feature : AiFeature)
    (transcript : jsString) (st : PanelState) :
  matchingEffect (List.map lowerTokens tokensMap) feature (toLowerCase transcript) st
  = matchingEffect tokensMap feature transcript st.
Proof.
  unfold matchingEffect. destruct (isTeleprompter feature); [|reflexivity]. cbn [negb].
  assert (Hlen : len (toLowerCase transcript) = len transcript)
    by apply len_map.
  rewrite !Hlen.
  destruct (len transcript <=? lastTranscriptLength st); [reflexivity|].
  rewrite slice_lower, parse_lower. unfold lowerTokens at 1. rewrite len_map.
  destruct (len (parseSegmentToTokens (slice transcript (lastTranscriptLength st))) =? 0);
    [reflexivity|].
  rewrite lookupZ_map.
  destruct (lookupZ tokensMap (activeSegmentIndex st)) as [ct|]; cbn [option_map];
    [|reflexivity].
  rewrite matchLoop_lowerTokens.
  destruct (matchLoop tokensMap (activeSegmentIndex st) ct
              (parseSegmentToTokens (slice transcript (lastTranscriptLength st)))
              (matchedWordCount st)) as [r|]; cbn [bind]; [|reflexivity].
  destruct r; [|reflexivity].
  unfold afterLoop, lowerTokens. now rewrite len_map.
Qed.

(** X5.  Matching ignores the case of Latin letters on both sides: for every
    script, transcript and state, the matching effect on the lowercased
    script and the lowercased transcript ends as it does on the originals. *)
Theorem matching_ignores_case (script transcript : jsString) (feature : AiFeature)
    (st : PanelState) :
  matchingEffect (segmentTokensMap (toLowerCase script)) feature
    (toLowerCase transcript) st
  = matchingEffect (segmentTokensMap script) feature transcript st.
Proof. rewrite segmentTokensMap_lower. apply matchingEffect_lowerTokens. Qed.

(** ** Segmenter: shape of the segments *)

Lemma dropSpaces_split (s : jsString) :
  exists pre, s = pre ++ dropSpaces s /\ forallb isSpace pre = true.
Proof.
  induction s as [|c s [pre [Hs Hpre]]]; [now exists []|].
  cbn [dropSpaces]. destruct (isSpace c) eqn:E.
  - exists (c :: pre). cbn. rewrite E, Hpre. split; [now f_equal | reflexivity].
  - now exists [].
Qed.

Lemma dropSpaces_head (s : jsString) (c : codeUnit) (r : jsString) :
  dropSpaces s = c :: r -> isSpace c = false.
Proof.
  induction s as [|d s IH]; [discriminate|]. cbn [dropSpaces].
  destruct (isSpace d) eqn:E; [exact IH|]. intros H. injection H as <- _. exact E.
Qed.

(** [trim] cuts a prefix and a suffix of white space, and what is left
    neither starts nor ends with white space. *)
Lemma trim_split (s : jsString) :
  exists pre post, s = pre ++ trim s ++ post /\
                   forallb isSpace pre = true /\ forallb isSpace post = true.
Proof.
  destruct (dropSpaces_split s) as [pre [Hs Hpre]].
  destruct (dropSpaces_split (rev (dropSpaces s))) as [post [Hd Hpost]].
  exists pre, (rev post). repeat split; [|exact Hpre|].
  - unfold trim. rewrite <- rev_app_distr, <- Hd, rev_involutive. exact Hs.
  - rewrite forallb_forall in *. intros c Hc. apply Hpost. now apply in_rev.
Qed.

Lemma trim_first (s : jsString) (c : codeUnit) (r : jsString) :
  trim s = c :: r -> isSpace c = false.
Proof.
  intros Ht.
  destruct (dropSpaces_split (rev (dropSpaces s))) as [post [Hd _]].
  assert (Hds : dropSpaces s = trim s ++ rev post).
  { unfold trim. rewrite <- rev_app_distr, <- Hd. now rewrite rev_involutive. }
  rewrite Ht in Hds. cbn in Hds. eapply dropSpaces_head; exact Hds.
Qed.

Lemma trim_last (s : jsString) (r : jsString) (c : codeUnit) :
  trim s = r ++ [c] -> isSpace c = false.
Proof.
  unfold trim. intros Ht.
  apply (f_equal (@rev codeUnit)) in Ht. rewrite rev_involutive, rev_app_distr in Ht.
  cbn in Ht. eapply dropSpaces_head; exact Ht.
Qed.

Lemma splitPipe_noPipe (s : jsString) :
  forall cur, noPipe cur = true ->
  Forall (fun p => noPipe p = true) (splitPipe cur s).
Proof.
  induction s as [|c s IH]; intros cur Hcur; cbn [splitPipe].
  - now constructor.
  - destruct (c =? pipe) eqn:E.
    + constructor; [exact Hcur | now apply IH].
    + apply IH. unfold noPipe. rewrite forallb_app.
      apply andb_true_iff. split; [exact Hcur|]. cbn. now rewrite E.
Qed.

Lemma noPipe_middle (pre u post : jsString) :
  noPipe (pre ++ u ++ post) = true -> noPipe u = true.
Proof.
  unfold noPipe. rewrite !forallb_app. intros H.
  apply andb_true_iff in H as [_ H]. now apply andb_true_iff in H as [H _].
Qed.

(** X6.  Every segment the segmenter produces is non-empty, starts and ends
    with a code unit that is not white space, and contains no pipe. *)
Theorem segments_trimmed (script : jsString) (seg : jsString) :
  In seg (segments script) ->
  seg <> [] /\
  (forall c r, seg = c :: r -> isSpace c = false) /\
  (forall r c, seg = r ++ [c] -> isSpace c = false) /\
  noPipe seg = true.
Proof.
  unfold segments. destruct script as [|c0 s]; [intros []|].
  intros Hin. apply filter_In in Hin as [Hin Hlen].
  apply in_map_iff in Hin as [p [<- Hp]].
  split; [|split; [|split]].
  - intros Hnil. rewrite Hnil in Hlen. discriminate.
  - intros c r. apply trim_first.
  - intros r c. apply trim_last.
  - pose proof (splitPipe_noPipe (replaceTerminals false (c0 :: s)) [] eq_refl) as Hall.
    rewrite Forall_forall in Hall. specialize (Hall p Hp).
    destruct (trim_split p) as [pre [post [Hsplit _]]].
    rewrite Hsplit in Hall. eapply noPipe_middle; exact Hall.
Qed.

Lemma segments_trimmed_witness :
  ofAscii "Hello world." <> [] /\
  (forall c r, ofAscii "Hello world." = c :: r -> isSpace c = false) /\
  (forall r c, ofAscii "Hello world." = r ++ [c] -> isSpace c = false) /\
  noPipe (ofAscii "Hello world.") = true.
Proof. apply (segments_trimmed scriptHello). vm_compute. now left. Defined.

(** The replacement puts a pipe behind every terminal mark. *)
Lemma replaceTerminals_piped (s : jsString) :
  forall skipping, terminalsPiped (replaceTerminals skipping s) = true.
Proof.
  induction s as [|c s IH]; intros skipping; [reflexivity|].
  cbn [replaceTerminals]. destruct (skipping && isSpace c); [apply IH|].
  destruct (isTerminal c) eqn:Et.
  - cbn [terminalsPiped]. rewrite Et, Z.eqb_refl.
    replace (isTerminal pipe) with false by reflexivity. cbn [andb]. apply IH.
  - cbn [terminalsPiped]. rewrite Et. cbn [andb]. apply IH.
Qed.

Lemma terminalsPiped_suffix (p q : jsString) :
  terminalsPiped (p ++ q) = true -> terminalsPiped q = true.
Proof.
  induction p as [|c p IH]; [trivial|]. cbn [app terminalsPiped].
  intros H. apply andb_true_iff in H as [_ H]. now apply IH.
Qed.

Lemma terminalsPiped_piece (p q : jsString) :
  terminalsPiped (p ++ q) = true -> noPipe p = true ->
  (p <> [] -> exists q', q = pipe :: q') ->
  terminalOnlyLast p = true.
Proof.
  induction p as [|c p IH]; [reflexivity|]. cbn [app terminalsPiped terminalOnlyLast].
  intros H Hno Hq. apply andb_true_iff in H as [Hc H].
  cbn in Hno. apply andb_true_iff in Hno as [_ Hno].
  apply andb_true_iff. split.
  - destruct (isTerminal c); [|reflexivity]. cbn [negb orb].
    destruct p as [|d p]; [reflexivity|].
    cbn in Hc, Hno. apply andb_true_iff in Hno as [Hd _]. rewrite Hc in Hd. discriminate.
  - destruct p as [|d p]; [reflexivity|]. apply IH; [exact H | exact Hno |].
    intros _. apply Hq. discriminate.
Qed.

Lemma terminalsPiped_no_pipe (p : jsString) :
  terminalsPiped p = true -> noPipe p = true -> terminalOnlyLast p = true.
Proof.
  induction p as [|c p IH]; [reflexivity|]. cbn [terminalsPiped terminalOnlyLast].
  intros H Hno. apply andb_true_iff in H as [Hc H].
  cbn in Hno. apply andb_true_iff in Hno as [_ Hno].
  rewrite (IH H Hno), andb_true_r.
  destruct (isTerminal c); [|reflexivity].
  destruct p as [|d p]; [discriminate|].
  cbn in Hno. apply andb_true_iff in Hno as [Hd _]. rewrite Hc in Hd. discriminate.
Qed.

Lemma splitPipe_terminalOnlyLast (s : jsString) :
  forall cur, terminalsPiped (cur ++ s) = true -> noPipe cur = true ->
  Forall (fun p => terminalOnlyLast p = true) (splitPipe cur s).
Proof.
  induction s as [|c s IH]; intros cur Hp Hcur; cbn [splitPipe].
  - constructor; [|constructor]. rewrite app_nil_r in Hp.
    now apply terminalsPiped_no_pipe.
  - destruct (Z.eqb_spec c pipe) as [-> | Hne].
    + constructor.
      * apply (terminalsPiped_piece cur (pipe :: s) Hp Hcur). intros _. now exists s.
      * apply (IH []); [|reflexivity].
        apply (terminalsPiped_suffix (cur ++ [pipe])). now rewrite <- app_assoc.
    + apply IH.
      * now rewrite <- app_assoc.
      * unfold noPipe. rewrite forallb_app.
        apply andb_true_iff. split; [exact Hcur|]. cbn.
        apply Z.eqb_neq in Hne. now rewrite Hne.
Qed.

Lemma terminalOnlyLast_suffix (a b : jsString) :
  terminalOnlyLast (a ++ b) = true -> terminalOnlyLast b = true.
Proof.
  induction a as [|c a IH]; [trivial|]. cbn [app terminalOnlyLast].
  intros H. apply andb_true_iff in H as [_ H]. now apply IH.
Qed.

Lemma terminalOnlyLast_prefix (a b : jsString) :
  terminalOnlyLast (a ++ b) = true -> terminalOnlyLast a = true.
Proof.
  induction a as [|c a IH]; [reflexivity|]. cbn [app terminalOnlyLast].
  intros H. apply andb_true_iff in H as [Hc H]. rewrite (IH H), andb_true_r.
  destruct (isTerminal c); [|reflexivity]. cbn [negb orb] in *.
  destruct a; [reflexivity | discriminate].
Qed.

Lemma terminalOnlyLast_spec (s a : jsString) (c : codeUnit) (b : jsString) :
  terminalOnlyLast s = true -> s = a ++ c :: b -> isTerminal c = true -> b = [].
Proof.
  intros Hs -> Hc. apply terminalOnlyLast_suffix in Hs.
  cbn [terminalOnlyLast] in Hs. rewrite Hc in Hs. cbn [negb orb] in Hs.
  destruct b; [reflexivity | discriminate].
Qed.

(** X7.  A terminal mark stays attached to the unit before it and ends it:
    in every segment a terminal mark can only be the last code unit, so a
    segment holds at most one. *)
Theorem segments_terminal_last (script : jsString) (seg a : jsString) (c : codeUnit)
    (b : jsString) :
  In seg (segments script) ->
  seg = a ++ c :: b ->
  isTerminal c = true ->
  b = [].
Proof.
  unfold segments. destruct script as [|c0 s]; [intros []|].
  intros Hin. apply filter_In in Hin as [Hin _].
  apply in_map_iff in Hin as [p [<- Hp]].
  pose proof (splitPipe_terminalOnlyLast (replaceTerminals false (c0 :: s)) []
                (replaceTerminals_piped (c0 :: s) false) eq_refl) as Hall.
  rewrite Forall_forall in Hall. specialize (Hall p Hp).
  destruct (trim_split p) as [pre [post [Hsplit _]]].
  rewrite Hsplit in Hall.
  apply terminalOnlyLast_suffix, terminalOnlyLast_prefix in Hall.
  now apply terminalOnlyLast_spec.
Qed.

Lemma segments_terminal_last_witness : @nil codeUnit = [].
Proof.
  apply (segments_terminal_last scriptHello (ofAscii "Hello world.")
           (ofAscii "Hello world") 46 []).
  - vm_compute. now left.
  - reflexivity.
  - reflexivity.
Defined.

Lemma joined_segments_kept (script : jsString) :
  filter nonSpace (concat (segments script)) = filter keptBySegmenter script.
Proof.
  unfold segments. destruct script as [|c s]; [reflexivity|].
  rewrite concat_nonempty, nonSpace_concat_trim, concat_splitPipe.
  cbn [app]. rewrite filter_filter_and. apply kept_replaceTerminals.
Qed.

Lemma segments_head_nonSpace (script : jsString) (seg : jsString) :
  In seg (segments script) -> exists c r, seg = c :: r /\ isSpace c = false.
Proof.
  unfold segments. destruct script as [|c0 s]; [intros []|].
  intros Hin. apply filter_In in Hin as [Hin Hlen].
  apply in_map_iff in Hin as [p [<- _]].
  destruct (trim p) as [|c r] eqn:E; [discriminate Hlen|].
  exists c, r. split; [reflexivity|]. eapply trim_first; exact E.
Qed.

(** X8.  A script has no segments exactly when each of its code units is
    white space or a pipe: an empty or blank script leaves the component
    without any line, and one other character gives at least one. *)
Theorem segments_empty_iff (script : jsString) :
  segments script = [] <->
  forall c, In c script -> isSpace c = true \/ c = pipe.
Proof.
  assert (Hkept : (forall c, In c script -> isSpace c = true \/ c = pipe) <->
                  filter keptBySegmenter script = []).
  { rewrite filter_nil_iff. unfold keptBySegmenter, nonSpace.
    split; intros H c Hc; specialize (H c Hc).
    - destruct H as [-> | ->]; [reflexivity | apply andb_false_r].
    - destruct (isSpace c); [now left|]. right. cbn in H.
      apply negb_false_iff, Z.eqb_eq in H. exact H. }
  rewrite Hkept, <- joined_segments_kept. split.
  - now intros ->.
  - intros Hnil. destruct (segments script) as [|seg l] eqn:E; [reflexivity|].
    destruct (segments_head_nonSpace script seg) as [c [r [-> Hc]]];
      [rewrite E; now left|].
    cbn in Hnil. unfold nonSpace at 1 in Hnil. rewrite Hc in Hnil. discriminate.
Qed.

(** ** The machine: totality and progress *)

Section MachineProgress.

Variable tokensMap : list (list jsString).

Lemma step_matched_nonneg (st : PanelState) (ev : event) :
  0 <= matchedWordCount st ->
  exists st', step tokensMap st ev = Normal st' /\ 0 <= matchedWordCount st'.
Proof.
  intros Hm. destruct ev as [transcript | | d | deltaY | ]; cbn [step].
  - destruct (matchingEffect_cursor tokensMap TELEPROMPTER transcript st Hm)
      as [st' [H [_ Hm']]]. now exists st'.
  - eexists; split; [reflexivity|]. unfold timerFires.
    destruct (scrollTimeout st) as [[|]|]; cbn; lia.
  - eexists; split; [reflexivity|]. unfold handleManualScroll. cbn.
    destruct (_ =? _); lia.
  - eexists; split; [reflexivity|]. unfold handleWheel, handleManualScroll.
    cbn [isTeleprompter negb].
    destruct (scrollTimeout st); [exact Hm|].
    destruct (Z.abs deltaY >? 20); [|exact Hm]. cbn. destruct (_ =? _); lia.
  - eexists; split; [reflexivity|]. cbn. lia.
Qed.

Lemma reachable_matched_nonneg (st : PanelState) :
  reachable tokensMap st -> 0 <= matchedWordCount st.
Proof.
  intros Hreach. induction Hreach as [|st ev st' _ IH Hstep]; [cbn; lia|].
  destruct (step_matched_nonneg st ev IH) as [st'' [Hstep' Hm]]. congruence.
Qed.

End MachineProgress.

(** X9.  For every script, the empty one included, the matched count of a
    reachable state is never negative and no event makes the component throw:
    the token lookups of the matching loops stay inside the tables. *)
Theorem reachable_never_throws (tokensMap : list (list jsString)) (st : PanelState)
    (ev : event) :
  reachable tokensMap st ->
  0 <= matchedWordCount st /\
  exists st', step tokensMap st ev = Normal st' /\ reachable tokensMap st'.
Proof.
  intros Hreach. pose proof (reachable_matched_nonneg tokensMap st Hreach) as Hm.
  split; [exact Hm|].
  destruct (step_matched_nonneg tokensMap st ev Hm) as [st' [Hstep _]].
  exists st'. split; [exact Hstep|]. eapply reachable_step; eassumption.
Qed.

Lemma reachable_never_throws_witness :
  0 <= matchedWordCount initialState /\
  exists st', step (segmentTokensMap scriptHello) initialState
                (TranscriptUpdate saidHelloWorld) = Normal st' /\
              reachable (segmentTokensMap scriptHello) st'.
Proof. apply reachable_never_throws. apply reachable_initial. Defined.

(** X10.  A transcript update never moves the position back: from a state
    with a non-negative matched count it completes, and either the active
    segment is the same and the matched count has not decreased, or the
    active index went up by exactly one to a segment of the script, with one
    to three of its tokens matched. *)
Theorem transcript_update_progress (tokensMap : list (list jsString))
    (transcript : jsString) (st : PanelState) :
  0 <= matchedWordCount st ->
  exists st',
    matchingEffect tokensMap TELEPROMPTER transcript st = Normal st' /\
    ((activeSegmentIndex st' = activeSegmentIndex st /\
      matchedWordCount st <= matchedWordCount st') \/
     (activeSegmentIndex st' = activeSegmentIndex st + 1 /\
      activeSegmentIndex st' < segmentsLength tokensMap /\
      1 <= matchedWordCount st' <= 3 /\
      exists nt, lookupZ tokensMap (activeSegmentIndex st') = Some nt /\
                 matchedWordCount st' <= len nt)).
Proof.
  intros Hm.
  destruct (matchingEffect_cases tokensMap TELEPROMPTER transcript st (fun _ _ => Hm))
    as [H | [[_ H] | [[_ [ct [cmi [_ [Hc H]]]]] | [_ [nt [j [Hnext [Hnt [Hj H]]]]]]]]];
    rewrite H; eexists; (split; [reflexivity|]).
  - left. split; [reflexivity | lia].
  - left. split; [reflexivity | cbn; lia].
  - left. split; [reflexivity | cbn; lia].
  - right. cbn [activeSegmentIndex matchedWordCount]. unfold segmentsLength in *.
    repeat split; try lia. exists nt. split; [exact Hnt | lia].
Qed.

Lemma transcript_update_progress_witness :
  exists st',
    matchingEffect (segmentTokensMap scriptHello) TELEPROMPTER saidHelloWorld initialState
      = Normal st' /\
    ((activeSegmentIndex st' = activeSegmentIndex initialState /\
      matchedWordCount initialState <= matchedWordCount st') \/
     (activeSegmentIndex st' = activeSegmentIndex initialState + 1 /\
      activeSegmentIndex st' < segmentsLength (segmentTokensMap scriptHello) /\
      1 <= matchedWordCount st' <= 3 /\
      exists nt, lookupZ (segmentTokensMap scriptHello) (activeSegmentIndex st') = Some nt /\
                 matchedWordCount st' <= len nt)).
Proof. apply transcript_update_progress. cbn. lia. Defined.

(** ** The wheel and the shared timer ref *)

(** X11.  The wheel is throttled through the shared timer ref: while any
    timer is pending, the auto-advance debounce included, a wheel event
    changes nothing; a wheel event of at most 20 pixels changes nothing; and
    after a wheel event that scrolled, a further wheel event changes nothing
    until the timer has fired. *)
Theorem wheel_throttle (tokensMap : list (list jsString)) (st : PanelState) :
  (forall feature deltaY,
     scrollTimeout st <> None -> handleWheel tokensMap feature deltaY st = st) /\
  (forall feature deltaY,
     Z.abs deltaY <= 20 -> handleWheel tokensMap feature deltaY st = st) /\
  (forall deltaY deltaY',
     scrollTimeout st = None -> 20 < Z.abs deltaY ->
     scrollTimeout (handleWheel tokensMap TELEPROMPTER deltaY st)
       = Some WheelThrottleTimer /\
     handleWheel tokensMap TELEPROMPTER deltaY'
       (handleWheel tokensMap TELEPROMPTER deltaY st)
     = handleWheel tokensMap TELEPROMPTER deltaY st).
Proof.
  split; [|split].
  - intros feature deltaY Hpending. unfold handleWheel.
    destruct (isTeleprompter feature); [|reflexivity]. cbn [negb].
    destruct (scrollTimeout st); [reflexivity | congruence].
  - intros feature deltaY Hsmall. unfold handleWheel.
    destruct (isTeleprompter feature); [|reflexivity]. cbn [negb].
    destruct (scrollTimeout st); [reflexivity|].
    destruct (Z.gtb_spec (Z.abs deltaY) 20); [lia | reflexivity].
  - intros deltaY deltaY' Hnone Hbig. unfold handleWheel at 1 3 4.
    cbn [isTeleprompter negb]. rewrite Hnone.
    destruct (Z.gtb_spec (Z.abs deltaY) 20); [|lia].
    split; reflexivity.
Qed.

Lemma wheel_throttle_witness :
  handleWheel (segmentTokensMap scriptAbc) TELEPROMPTER 100
    (mkPanelState 0 1 1 (Some AutoAdvanceTimer))
  = mkPanelState 0 1 1 (Some AutoAdvanceTimer) /\
  handleWheel (segmentTokensMap scriptAbc) TELEPROMPTER 20 initialState = initialState /\
  scrollTimeout (handleWheel (segmentTokensMap scriptAbc) TELEPROMPTER 100 initialState)
    = Some WheelThrottleTimer /\
  handleWheel (segmentTokensMap scriptAbc) TELEPROMPTER (-100)
    (handleWheel (segmentTokensMap scriptAbc) TELEPROMPTER 100 initialState)
  = handleWheel (segmentTokensMap scriptAbc) TELEPROMPTER 100 initialState.
Proof.
  split; [|split].
  - apply (proj1 (wheel_throttle (segmentTokensMap scriptAbc)
                    (mkPanelState 0 1 1 (Some AutoAdvanceTimer)))).
    discriminate.
  - apply (proj1 (proj2 (wheel_throttle (segmentTokensMap scriptAbc) initialState))).
    cbn. lia.
  - apply (proj2 (proj2 (wheel_throttle (segmentTokensMap scriptAbc) initialState))).
    + reflexivity.
    + cbn. lia.
Defined.

(** X12.  While the wheel throttle occupies the timer ref, a transcript
    update that completes the active segment does not arm the auto-advance:
    the update either jumps or leaves the throttle in the ref, and when the
    throttle then fires the position stays where it is. *)
Theorem throttle_blocks_auto_advance (tokensMap : list (list jsString))
    (transcript : jsString) (st : PanelState) :
  scrollTimeout st = Some WheelThrottleTimer ->
  0 <= matchedWordCount st ->
  exists st',
    matchingEffect tokensMap TELEPROMPTER transcript st = Normal st' /\
    scrollTimeout st' <> Some AutoAdvanceTimer /\
    activeSegmentIndex (timerFires tokensMap st') = activeSegmentIndex st' /\
    matchedWordCount (timerFires tokensMap st') = matchedWordCount st'.
Proof.
  intros Htimer Hm.
  destruct (matchingEffect_cases tokensMap TELEPROMPTER transcript st (fun _ _ => Hm))
    as [H | [[_ H] | [[_ [ct [cmi [_ [Hc H]]]]] | [_ [nt [j [_ [_ [_ H]]]]]]]]];
    rewrite H; eexists; (split; [reflexivity|]);
    unfold timerFires, afterLoop; cbn [scrollTimeout]; rewrite ?Htimer;
    try (destruct (_ && _)); repeat split; try discriminate.
Qed.

Lemma throttle_blocks_auto_advance_witness :
  exists st',
    matchingEffect (segmentTokensMap scriptAbc) TELEPROMPTER saidA
      (mkPanelState 0 0 0 (Some WheelThrottleTimer)) = Normal st' /\
    scrollTimeout st' <> Some AutoAdvanceTimer /\
    activeSegmentIndex (timerFires (segmentTokensMap scriptAbc) st')
      = activeSegmentIndex st' /\
    matchedWordCount (timerFires (segmentTokensMap scriptAbc) st')
      = matchedWordCount st'.
Proof. apply throttle_blocks_auto_advance; [reflexivity | cbn; lia]. Defined.

(** X13.  A pending timer outlives every event but its own firing and a
    jump: after a manual scroll, a wheel event, a reset or a transcript update
    that does not change the active segment, the timer that was pending is
    still the one in the ref. *)
Theorem pending_timer_survives (tokensMap : list (list jsString)) (st : PanelState)
    (ev : event) (pending : timerKind) :
  scrollTimeout st = Some pending ->
  0 <= matchedWordCount st ->
  ev <> TimerFires ->
  exists st',
    step tokensMap st ev = Normal st' /\
    (scrollTimeout st' = Some pending \/
     (scrollTimeout st' = None /\
      activeSegmentIndex st' = activeSegmentIndex st + 1 /\
      exists transcript, ev = TranscriptUpdate transcript)).
Proof.
  intros Htimer Hm Hev. destruct ev as [transcript | | d | deltaY | ]; cbn [step].
  - destruct (matchingEffect_cases tokensMap TELEPROMPTER transcript st (fun _ _ => Hm))
      as [H | [[_ H] | [[_ [ct [cmi [_ [Hc H]]]]] | [_ [nt [j [_ [_ [_ H]]]]]]]]];
      rewrite H; eexists; (split; [reflexivity|]).
    + now left.
    + now left.
    + left. unfold afterLoop. cbn [scrollTimeout]. rewrite Htimer.
      now destruct (_ && _).
    + right. repeat split. now exists transcript.
  - congruence.
  - eexists; split; [reflexivity|]. now left.
  - eexists; split; [reflexivity|]. left. unfold handleWheel.
    cbn [isTeleprompter negb]. now rewrite Htimer.
  - eexists; split; [reflexivity|]. now left.
Qed.

Lemma pending_timer_survives_witness :
  exists st',
    step (segmentTokensMap scriptAbc) (mkPanelState 0 1 1 (Some AutoAdvanceTimer)) Reset
      = Normal st' /\
    (scrollTimeout st' = Some AutoAdvanceTimer \/
     (scrollTimeout st' = None /\
      activeSegmentIndex st' = 0 + 1 /\
      exists transcript, Reset = TranscriptUpdate transcript)).
Proof.
  apply (pending_timer_survives (segmentTokensMap scriptAbc)
           (mkPanelState 0 1 1 (Some AutoAdvanceTimer)) Reset AutoAdvanceTimer).
  - reflexivity.
  - cbn. lia.
  - discriminate.
Defined.

(** ** Manual navigation *)

(** X14.  On an active segment ([0 <= activeSegmentIndex < segments.length])
    the manual advance on the last segment and the manual retreat on segment 0
    change nothing; everywhere else they move by exactly one segment and
    reset the matched count to 0.  The cursor and the timer are never
    touched. *)
Theorem manual_scroll_on_active_segment (tokensMap : list (list jsString))
    (st : PanelState) :
  0 <= activeSegmentIndex st < segmentsLength tokensMap ->
  handleManualScroll tokensMap next st =
    (if activeSegmentIndex st =? segmentsLength tokensMap - 1 then st
     else mkPanelState (activeSegmentIndex st + 1) 0
                       (lastTranscriptLength st) (scrollTimeout st)) /\
  handleManualScroll tokensMap prev st =
    (if activeSegmentIndex st =? 0 then st
     else mkPanelState (activeSegmentIndex st - 1) 0
                       (lastTranscriptLength st) (scrollTimeout st)).
Proof.
  unfold segmentsLength.
  intros Hidx. destruct st as [idx mwc cur timer]. cbn in Hidx.
  unfold handleManualScroll, segmentsLength. cbn [activeSegmentIndex matchedWordCount
    lastTranscriptLength scrollTimeout]. split.
  - destruct (Z.eqb_spec idx (len tokensMap - 1)) as [-> | Hne].
    + replace (Z.min (len tokensMap - 1 + 1) (len tokensMap - 1))
        with (len tokensMap - 1) by lia.
      now rewrite Z.eqb_refl.
    + replace (Z.min (idx + 1) (len tokensMap - 1)) with (idx + 1) by lia.
      destruct (Z.eqb_spec (idx + 1) idx); [lia | reflexivity].
  - destruct (Z.eqb_spec idx 0) as [-> | Hne].
    + reflexivity.
    + replace (Z.max (idx - 1) 0) with (idx - 1) by lia.
      destruct (Z.eqb_spec (idx - 1) idx); [lia | reflexivity].
Qed.

Lemma manual_scroll_on_active_segment_witness :
  handleManualScroll (segmentTokensMap scriptAbc) next (mkPanelState 2 1 5 None)
    = mkPanelState 2 1 5 None /\
  handleManualScroll (segmentTokensMap scriptAbc) prev (mkPanelState 2 1 5 None)
    = mkPanelState 1 0 5 None.
Proof.
  apply (manual_scroll_on_active_segment (segmentTokensMap scriptAbc)
           (mkPanelState 2 1 5 None)).
  vm_compute. split; congruence.
Defined.

(** X15.  Advance followed by retreat, and retreat followed by advance, come
    back to the segment they started from, with the matched count of that
    segment lost: it is 0 afterwards. *)
Theorem manual_scroll_round_trip (tokensMap : list (list jsString)) (st : PanelState) :
  (0 <= activeSegmentIndex st < segmentsLength tokensMap - 1 ->
   handleManualScroll tokensMap prev (handleManualScroll tokensMap next st)
   = mkPanelState (activeSegmentIndex st) 0 (lastTranscriptLength st) (scrollTimeout st))
  /\
  (0 < activeSegmentIndex st < segmentsLength tokensMap ->
   handleManualScroll tokensMap next (handleManualScroll tokensMap prev st)
   = mkPanelState (activeSegmentIndex st) 0 (lastTranscriptLength st) (scrollTimeout st)).
Proof.
  unfold segmentsLength.
  destruct st as [idx mwc cur timer].
  unfold handleManualScroll, segmentsLength. cbn [activeSegmentIndex matchedWordCount
    lastTranscriptLength scrollTimeout]. split; intros Hidx.
  - replace (Z.min (idx + 1) (len tokensMap - 1)) with (idx + 1) by lia.
    replace (Z.max (idx + 1 - 1) 0) with idx by lia.
    destruct (Z.eqb_spec idx (idx + 1)); [lia | reflexivity].
  - replace (Z.max (idx - 1) 0) with (idx - 1) by lia.
    replace (Z.min (idx - 1 + 1) (len tokensMap - 1)) with idx by lia.
    destruct (Z.eqb_spec idx (idx - 1)); [lia | reflexivity].
Qed.

Lemma manual_scroll_round_trip_witness :
  handleManualScroll (segmentTokensMap scriptAbc) prev
    (handleManualScroll (segmentTokensMap scriptAbc) next (mkPanelState 1 1 3 None))
  = mkPanelState 1 0 3 None /\
  handleManualScroll (segmentTokensMap scriptAbc) next
    (handleManualScroll (segmentTokensMap scriptAbc) prev (mkPanelState 1 1 3 None))
  = mkPanelState 1 0 3 None.
Proof.
  destruct (manual_scroll_round_trip (segmentTokensMap scriptAbc)
              (mkPanelState 1 1 3 None)) as [Hnp Hpn].
  split; [apply Hnp | apply Hpn]; vm_compute; split; congruence.
Defined.

(** X16.  On an active segment each side button is disabled exactly when
    its click would change nothing.  In the terminal state the advance
    button is disabled too, although the handler would move back to the last
    segment. *)
Theorem buttons_disabled_iff_noop (tokensMap : list (list jsString)) (st : PanelState) :
  (0 <= activeSegmentIndex st < segmentsLength tokensMap ->
   (prevDisabled st = true <-> handleManualScroll tokensMap prev st = st) /\
   (nextDisabled tokensMap st = true <-> handleManualScroll tokensMap next st = st))
  /\
  (1 <= segmentsLength tokensMap ->
   activeSegmentIndex st = segmentsLength tokensMap ->
   nextDisabled tokensMap st = true /\ handleManualScroll tokensMap next st <> st).
Proof.
  unfold segmentsLength.
  destruct st as [idx mwc cur timer].
  unfold prevDisabled, nextDisabled, handleManualScroll, segmentsLength.
  cbn [activeSegmentIndex matchedWordCount lastTranscriptLength scrollTimeout].
  split.
  - intros Hidx. split; split.
    + intros H. apply Z.eqb_eq in H. subst idx. reflexivity.
    + intros H. injection H as H _. apply Z.eqb_eq. lia.
    + intros H. apply Z.geb_le in H.
      replace (Z.min (idx + 1) (len tokensMap - 1)) with idx by lia.
      now rewrite Z.eqb_refl.
    + intros H. injection H as H _. apply Z.geb_le. lia.
  - intros Hlen ->. split; [apply Z.geb_le; lia|].
    intros H. injection H as H _. lia.
Qed.

Lemma buttons_disabled_iff_noop_witness :
  ((prevDisabled initialState = true <->
    handleManualScroll (segmentTokensMap scriptAbc) prev initialState = initialState) /\
   (nextDisabled (segmentTokensMap scriptAbc) initialState = true <->
    handleManualScroll (segmentTokensMap scriptAbc) next initialState = initialState)) /\
  (nextDisabled (segmentTokensMap scriptAbc) (mkPanelState 3 0 5 None) = true /\
   handleManualScroll (segmentTokensMap scriptAbc) next (mkPanelState 3 0 5 None)
     <> mkPanelState 3 0 5 None).
Proof.
  split.
  - apply (proj1 (buttons_disabled_iff_noop (segmentTokensMap scriptAbc) initialState)).
    vm_compute. split; congruence.
  - apply (proj2 (buttons_disabled_iff_noop (segmentTokensMap scriptAbc)
                    (mkPanelState 3 0 5 None))).
    + vm_compute. congruence.
    + reflexivity.
Defined.

(** ** When the auto-advance is armed and where the script ends *)

(** X17.  A segment without tokens (a lone punctuation mark) is never left
    by the auto-advance: a transcript update on it either jumps to the next
    segment or leaves the active index, the matched count and the timer ref
    as they were. *)
Theorem tokenless_segment_waits (tokensMap : list (list jsString))
    (transcript : jsString) (st : PanelState) :
  lookupZ tokensMap (activeSegmentIndex st) = Some [] ->
  0 <= matchedWordCount st ->
  exists st',
    matchingEffect tokensMap TELEPROMPTER transcript st = Normal st' /\
    ((activeSegmentIndex st' = activeSegmentIndex st /\
      matchedWordCount st' = matchedWordCount st /\
      scrollTimeout st' = scrollTimeout st) \/
     (activeSegmentIndex st' = activeSegmentIndex st + 1 /\
      scrollTimeout st' = None)).
Proof.
  intros Hct Hm.
  destruct (matchingEffect_cases tokensMap TELEPROMPTER transcript st (fun _ _ => Hm))
    as [H | [[_ H] | [[_ [ct [cmi [Hct' [Hc H]]]]] | [_ [nt [j [_ [_ [_ H]]]]]]]]];
    rewrite H; eexists; (split; [reflexivity|]).
  - left. now repeat split.
  - left. now repeat split.
  - left. rewrite Hct in Hct'. injection Hct' as <-.
    unfold afterLoop. cbn. change (len (@nil jsString)) with 0 in Hc.
    repeat split. lia.
  - right. now split.
Qed.

Lemma tokenless_segment_waits_witness :
  exists st',
    matchingEffect (segmentTokensMap scriptEllipsis) TELEPROMPTER saidUm initialState
      = Normal st' /\
    ((activeSegmentIndex st' = activeSegmentIndex initialState /\
      matchedWordCount st' = matchedWordCount initialState /\
      scrollTimeout st' = scrollTimeout initialState) \/
     (activeSegmentIndex st' = activeSegmentIndex initialState + 1 /\
      scrollTimeout st' = None)).
Proof. apply tokenless_segment_waits; [reflexivity | cbn; lia]. Defined.

(** X18.  The auto-advance is armed by a complete match only: from a state
    with no timer pending whose matched count lies inside the active table, a
    transcript update ends with no timer, or with the auto-advance debounce
    pending on the same segment, which then has at least one token and all of
    its tokens matched. *)
Theorem auto_advance_only_when_complete (tokensMap : list (list jsString))
    (transcript : jsString) (st : PanelState) :
  scrollTimeout st = None ->
  (forall ct, lookupZ tokensMap (activeSegmentIndex st) = Some ct ->
              0 <= matchedWordCount st <= len ct) ->
  exists st',
    matchingEffect tokensMap TELEPROMPTER transcript st = Normal st' /\
    (scrollTimeout st' = None \/
     (scrollTimeout st' = Some AutoAdvanceTimer /\
      activeSegmentIndex st' = activeSegmentIndex st /\
      exists ct, lookupZ tokensMap (activeSegmentIndex st) = Some ct /\
                 0 < len ct /\ matchedWordCount st' = len ct)).
Proof.
  intros Htimer Hm.
  destruct (matchingEffect_cases tokensMap TELEPROMPTER transcript st
              (fun ct Hct => proj1 (Hm ct Hct)))
    as [H | [[_ H] | [[_ [ct [cmi [Hct [Hc H]]]]] | [_ [nt [j [_ [_ [_ H]]]]]]]]];
    rewrite H; eexists; (split; [reflexivity|]); try (now left).
  unfold afterLoop. cbn [scrollTimeout activeSegmentIndex matchedWordCount].
  rewrite Htimer. specialize (Hm ct Hct).
  destruct (Z.gtb_spec (len ct) 0) as [Hpos | Hzero]; cbn [andb]; [|now left].
  destruct (Z.geb_spec cmi (len ct)) as [Hfull | Hpart]; [|now left].
  right. repeat split. exists ct. repeat split; [exact Hct | lia | lia].
Qed.

Lemma auto_advance_only_when_complete_witness :
  exists st',
    matchingEffect (segmentTokensMap scriptAbc) TELEPROMPTER saidA initialState
      = Normal st' /\
    (scrollTimeout st' = None \/
     (scrollTimeout st' = Some AutoAdvanceTimer /\
      activeSegmentIndex st' = activeSegmentIndex initialState /\
      exists ct, lookupZ (segmentTokensMap scriptAbc) (activeSegmentIndex initialState)
                   = Some ct /\
                 0 < len ct /\ matchedWordCount st' = len ct)).
Proof.
  apply auto_advance_only_when_complete; [reflexivity|].
  intros ct Hct. vm_compute in Hct. injection Hct as <-. vm_compute.
  split; congruence.
Defined.

(** X19.  Only the firing timer ends the script: from a state that satisfies
    the invariant on an active segment, a transcript update, a manual scroll,
    a wheel event and a reset all complete on a segment of the script, never
    in the terminal state. *)
Theorem only_timer_ends_script (tokensMap : list (list jsString)) (st : PanelState)
    (ev : event) :
  invariant tokensMap st ->
  activeSegmentIndex st < segmentsLength tokensMap ->
  ev <> TimerFires ->
  exists st', step tokensMap st ev = Normal st' /\
              0 <= activeSegmentIndex st' < segmentsLength tokensMap.
Proof.
  intros Hinv Hactive Hev. pose proof Hinv as [Hidx Hin].
  destruct (Hin Hactive) as [tokens [Htokens Hm]].
  unfold segmentsLength in *.
  destruct ev as [transcript | | d | deltaY | ]; cbn [step].
  - assert (Hmwc : forall ct, lookupZ tokensMap (activeSegmentIndex st) = Some ct ->
                              0 <= matchedWordCount st) by (intros; lia).
    destruct (matchingEffect_cases tokensMap TELEPROMPTER transcript st Hmwc)
      as [H | [[_ H] | [[_ [ct [cmi [_ [_ H]]]]] | [_ [nt [j [Hnext [_ [_ H]]]]]]]]];
      rewrite H; eexists; (split; [reflexivity|]);
      unfold afterLoop; cbn [activeSegmentIndex];
      unfold segmentsLength in *; lia.
  - congruence.
  - eexists; split; [reflexivity|]. unfold handleManualScroll, segmentsLength.
    cbn [activeSegmentIndex]. destruct d; lia.
  - eexists; split; [reflexivity|]. unfold handleWheel, handleManualScroll, segmentsLength.
    cbn [isTeleprompter negb]. destruct (scrollTimeout st); [lia|].
    destruct (Z.abs deltaY >? 20); [|lia]. cbn [activeSegmentIndex].
    destruct (deltaY >? 0); lia.
  - eexists; split; [reflexivity|]. cbn. lia.
Qed.

Lemma only_timer_ends_script_witness :
  exists st',
    step (segmentTokensMap scriptAbc) (mkPanelState 2 1 5 None) (ManualScroll next)
      = Normal st' /\
    0 <= activeSegmentIndex st' < segmentsLength (segmentTokensMap scriptAbc).
Proof.
  apply only_timer_ends_script.
  - split; [vm_compute; split; congruence|]. intros _.
    exists [ofAscii "c"]. split; [reflexivity | vm_compute; split; congruence].
  - vm_compute. reflexivity.
  - discriminate.
Defined.

(** ** The renderer *)

Lemma renderFrom_tokens (tokens : list jsString) (matchedCount : Z) :
  forall idx, List.map spanToken (renderFrom idx tokens matchedCount) = tokens.
Proof.
  induction tokens as [|t l IH]; intros idx; [reflexivity|].
  cbn [renderFrom List.map spanToken]. now rewrite IH.
Qed.

Lemma renderFrom_flags (tokens : list jsString) (matchedCount : Z) :
  forall idx,
  List.map spanMatched (renderFrom idx tokens matchedCount)
  = repeat true (Z.to_nat (Z.min (matchedCount - idx) (len tokens)))
    ++ repeat false (length tokens - Z.to_nat (Z.min (matchedCount - idx) (len tokens))).
Proof.
  induction tokens as [|t l IH]; intros idx.
  - unfold len. cbn [length Z.of_nat renderFrom List.map].
    replace (Z.to_nat (Z.min (matchedCount - idx) 0)) with 0%nat by lia.
    reflexivity.
  - cbn [renderFrom List.map spanMatched]. rewrite IH.
    destruct (Z.ltb_spec idx matchedCount) as [Hlt | Hge].
    + replace (Z.to_nat (Z.min (matchedCount - idx) (len (t :: l))))
        with (S (Z.to_nat (Z.min (matchedCount - (idx + 1)) (len l))))
        by (unfold len; cbn [length]; lia).
      reflexivity.
    + replace (Z.to_nat (Z.min (matchedCount - idx) (len (t :: l)))) with 0%nat
        by (unfold len; cbn [length]; lia).
      replace (Z.to_nat (Z.min (matchedCount - (idx + 1)) (len l))) with 0%nat
        by (unfold len; lia).
      cbn. now rewrite Nat.sub_0_r.
Qed.

Lemma forallb_alnum_not_CJK (t : jsString) :
  forallb isAlnum t = true -> isCJKString t = false.
Proof.
  unfold isCJKString. induction t as [|c t IH]; [reflexivity|]. cbn.
  intros H. apply andb_true_iff in H as [Hc Ht]. rewrite (IH Ht), orb_false_r.
  destruct (isCJK c) eqn:E; [|reflexivity].
  apply isCJK_not_alnum in E. congruence.
Qed.

Lemma wellFormed_margin (t : jsString) :
  wellFormedToken t = true -> negb (isCJKString t) = forallb isAlnum t.
Proof.
  destruct t as [|c [|d t]]; [discriminate| |].
  - unfold wellFormedToken, isTokenChar, isCJKString. cbn.
    rewrite orb_false_r, andb_true_r.
    destruct (isAlnum c) eqn:Ea; destruct (isCJK c) eqn:Ec; try reflexivity;
      try discriminate.
    apply isCJK_not_alnum in Ec. congruence.
  - cbn [wellFormedToken]. intros H. rewrite H.
    now rewrite (forallb_alnum_not_CJK _ H).
Qed.

Lemma renderFrom_margins (tokens : list jsString) (matchedCount : Z) :
  Forall (fun t => wellFormedToken t = true) tokens ->
  forall idx,
  List.map spanMargin (renderFrom idx tokens matchedCount)
  = List.map (forallb isAlnum) tokens.
Proof.
  induction 1 as [|t l Ht _ IH]; intros idx; [reflexivity|].
  cbn [renderFrom List.map spanMargin]. now rewrite IH, wellFormed_margin.
Qed.

(** X20.  The renderer draws every token of the table once, in order, and
    marks as matched exactly the first [min(matchedCount, length)] of them
    (none when the count is 0 or negative): the green part of a line is
    always a prefix of it.  On the token table of a text, the tokens spaced
    by a margin are exactly the alphanumeric words; CJK characters are set
    without one. *)
Theorem render_marks_prefix (tokens : list jsString) (matchedCount : Z) :
  List.map spanToken (renderSegmentText tokens matchedCount) = tokens /\
  List.map spanMatched (renderSegmentText tokens matchedCount)
  = repeat true (Z.to_nat (Z.min matchedCount (len tokens)))
    ++ repeat false (length tokens - Z.to_nat (Z.min matchedCount (len tokens))) /\
  (forall text,
     List.map spanMargin (renderSegmentText (parseSegmentToTokens text) matchedCount)
     = List.map (forallb isAlnum) (parseSegmentToTokens text)).
Proof.
  unfold renderSegmentText. split; [apply renderFrom_tokens|]. split.
  - rewrite renderFrom_flags. now rewrite Z.sub_0_r.
  - intros text. apply renderFrom_margins. now apply scanTokens_wellFormed.
Qed.

(** ** The host's transcript and the deltas *)

Lemma slice_app_inside (p q : jsString) (c : Z) :
  0 <= c <= len p -> slice (p ++ q) c = slice p c ++ q.
Proof.
  intros Hc. unfold slice. destruct (Z.ltb_spec c 0); [lia|].
  rewrite len_app. pose proof (len_nonneg q).
  replace (Z.min c (len p + len q)) with c by lia.
  replace (Z.min c (len p)) with c by lia.
  rewrite skipn_app.
  replace (Z.to_nat c - length p)%nat with 0%nat by (unfold len in *; lia).
  reflexivity.
Qed.

Lemma slice_app_end (p q : jsString) : slice (p ++ q) (len p) = q.
Proof.
  rewrite slice_app_inside by (pose proof (len_nonneg p); lia).
  unfold slice. destruct (Z.ltb_spec (len p) 0); [pose proof (len_nonneg p); lia|].
  rewrite Z.min_id. unfold len. rewrite Nat2Z.id, skipn_all. reflexivity.
Qed.

Lemma matchingEffect_consume (tokensMap : list (list jsString)) (transcript : jsString)
    (st : PanelState) :
  lastTranscriptLength st < len transcript ->
  matchingEffect tokensMap TELEPROMPTER transcript st
  = consumeTokens tokensMap st (len transcript)
      (parseSegmentToTokens (slice transcript (lastTranscriptLength st))).
Proof.
  intros Hgrow. unfold matchingEffect, consumeTokens. cbn [isTeleprompter negb].
  destruct (Z.leb_spec (len transcript) (lastTranscriptLength st)); [lia | reflexivity].
Qed.

Lemma len_zero_nil {A : Type} (l : list A) : (len l =? 0) = true -> l = [].
Proof. destruct l; [reflexivity|]. unfold len. cbn [length]. intros H.
  apply Z.eqb_eq in H. lia. Qed.

Lemma len_app_nonzero {A : Type} (l1 l2 : list A) :
  (len l1 =? 0) = false -> (len (l1 ++ l2) =? 0) = false.
Proof.
  rewrite len_app, !Z.eqb_neq. pose proof (len_nonneg l1). pose proof (len_nonneg l2). lia.
Qed.

(** Two deltas in a row act as their concatenation, unless the first one
    jumps. *)
Lemma consumeTokens_compose (tokensMap : list (list jsString)) (st st1 : PanelState)
    (n1 n2 : Z) (T1 T2 : list jsString) :
  0 <= matchedWordCount st ->
  consumeTokens tokensMap st n1 T1 = Normal st1 ->
  activeSegmentIndex st1 = activeSegmentIndex st ->
  consumeTokens tokensMap st1 n2 T2 = consumeTokens tokensMap st n2 (T1 ++ T2).
Proof.
  intros Hm H1 Hidx. unfold consumeTokens in H1.
  destruct (len T1 =? 0) eqn:E1.
  { apply len_zero_nil in E1. subst T1. injection H1 as <-. reflexivity. }
  destruct (lookupZ tokensMap (activeSegmentIndex st)) as [ct|] eqn:Hct.
  2:{ injection H1 as <-. unfold consumeTokens.
      cbn [activeSegmentIndex matchedWordCount scrollTimeout]. rewrite Hct.
      destruct (len T2 =? 0); destruct (len (T1 ++ T2) =? 0); reflexivity. }
  destruct (matchLoop_total tokensMap (activeSegmentIndex st) ct T1
              (matchedWordCount st) Hm) as [r [Hr Hres]].
  rewrite Hr in H1. cbn [bind] in H1. destruct r as [cmi1 | j].
  2:{ injection H1 as <-. cbn in Hidx. lia. }
  injection H1 as <-. cbv beta iota in Hres.
  unfold consumeTokens, afterLoop, afterJump.
  cbn [activeSegmentIndex matchedWordCount scrollTimeout lastTranscriptLength].
  rewrite Hct, (len_app_nonzero T1 T2 E1).
  rewrite (matchLoop_app tokensMap _ ct T1 T2 _ _ Hr).
  destruct (len T2 =? 0) eqn:E2.
  { apply len_zero_nil in E2. subst T2. reflexivity. }
  destruct (matchLoop_total tokensMap (activeSegmentIndex st) ct T2 cmi1 ltac:(lia))
    as [r2 [Hr2 Hres2]].
  rewrite Hr2. cbn [bind]. destruct r2 as [cmi2 | j2]; [|reflexivity].
  cbv beta iota in Hres2.
  destruct (Z.gtb_spec (len ct) 0) as [Hpos | Hzero]; cbn [andb]; [|reflexivity].
  destruct (Z.geb_spec cmi1 (len ct)) as [Hf1 | Hp1];
    destruct (Z.geb_spec cmi2 (len ct)) as [Hf2 | Hp2]; try reflexivity; try lia.
  now destruct (scrollTimeout st).
Qed.

Lemma matchingEffect_grown (tokensMap : list (list jsString)) (transcript : jsString)
    (st : PanelState) :
  lastTranscriptLength st < len transcript ->
  0 <= matchedWordCount st ->
  exists st', matchingEffect tokensMap TELEPROMPTER transcript st = Normal st' /\
              lastTranscriptLength st' = len transcript.
Proof.
  intros Hgrow Hm. rewrite matchingEffect_consume by exact Hgrow.
  unfold consumeTokens.
  destruct (len _ =? 0); [eexists; split; reflexivity|].
  destruct (lookupZ tokensMap (activeSegmentIndex st)) as [ct|];
    [|eexists; split; reflexivity].
  destruct (matchLoop_total tokensMap (activeSegmentIndex st) ct
              (parseSegmentToTokens (slice transcript (lastTranscriptLength st)))
              (matchedWordCount st) Hm) as [r [Hr _]].
  rewrite Hr. cbn [bind]. destruct r; eexists; split; reflexivity.
Qed.

(** X21.  The host appends every recognizer result behind a space.  When the
    cursor stands at the end of the transcript so far, the delta of the next
    update is that space and the result, its spoken tokens are the tokens of
    the result alone, the update is never dropped by the length guard, and it
    leaves the cursor at the end of the new transcript. *)
Theorem appended_result_is_the_delta (tokensMap : list (list jsString))
    (prevTranscript t : jsString) (st : PanelState) :
  lastTranscriptLength st = len prevTranscript ->
  0 <= matchedWordCount st ->
  slice (appendTranscript prevTranscript t) (lastTranscriptLength st) = 32 :: t /\
  parseSegmentToTokens (slice (appendTranscript prevTranscript t) (lastTranscriptLength st))
    = parseSegmentToTokens t /\
  matchingEffect tokensMap TELEPROMPTER (appendTranscript prevTranscript t) st
    = consumeTokens tokensMap st (len (appendTranscript prevTranscript t))
        (parseSegmentToTokens t) /\
  exists st',
    matchingEffect tokensMap TELEPROMPTER (appendTranscript prevTranscript t) st
      = Normal st' /\
    lastTranscriptLength st' = len (appendTranscript prevTranscript t).
Proof.
  intros Hcur Hm. unfold appendTranscript.
  assert (Hslice : slice (prevTranscript ++ 32 :: t) (lastTranscriptLength st) = 32 :: t)
    by (rewrite Hcur; apply slice_app_end).
  assert (Hgrow : lastTranscriptLength st < len (prevTranscript ++ 32 :: t)).
  { rewrite Hcur. unfold len. rewrite length_app. cbn [length]. lia. }
  split; [exact Hslice|]. rewrite Hslice.
  assert (Hparse : parseSegmentToTokens (32 :: t) = parseSegmentToTokens t) by reflexivity.
  split; [exact Hparse|]. split.
  - rewrite matchingEffect_consume by exact Hgrow. now rewrite Hslice, Hparse.
  - now apply matchingEffect_grown.
Qed.

Lemma appended_result_is_the_delta_witness :
  slice (appendTranscript saidHelloWorld (ofAscii "Testing")) 11
    = 32 :: ofAscii "Testing" /\
  parseSegmentToTokens (slice (appendTranscript saidHelloWorld (ofAscii "Testing")) 11)
    = parseSegmentToTokens (ofAscii "Testing") /\
  matchingEffect (segmentTokensMap scriptHello) TELEPROMPTER
    (appendTranscript saidHelloWorld (ofAscii "Testing")) (mkPanelState 0 2 11 None)
    = consumeTokens (segmentTokensMap scriptHello) (mkPanelState 0 2 11 None)
        (len (appendTranscript saidHelloWorld (ofAscii "Testing")))
        (parseSegmentToTokens (ofAscii "Testing")) /\
  exists st',
    matchingEffect (segmentTokensMap scriptHello) TELEPROMPTER
      (appendTranscript saidHelloWorld (ofAscii "Testing")) (mkPanelState 0 2 11 None)
      = Normal st' /\
    lastTranscriptLength st' = len (appendTranscript saidHelloWorld (ofAscii "Testing")).
Proof.
  apply (appended_result_is_the_delta (segmentTokensMap scriptHello) saidHelloWorld
           (ofAscii "Testing") (mkPanelState 0 2 11 None)).
  - reflexivity.
  - cbn. lia.
Defined.

(** X22.  Feeding the transcript after each of two recognizer results, or
    only once after the second, ends in the same state, provided the first
    update does not change the active segment: without a jump, how the host
    batches its updates does not matter. *)
Theorem transcript_chunks_compose (tokensMap : list (list jsString))
    (prevTranscript t : jsString) (st st1 : PanelState) :
  0 <= lastTranscriptLength st <= len prevTranscript ->
  0 <= matchedWordCount st ->
  matchingEffect tokensMap TELEPROMPTER prevTranscript st = Normal st1 ->
  activeSegmentIndex st1 = activeSegmentIndex st ->
  matchingEffect tokensMap TELEPROMPTER (appendTranscript prevTranscript t) st1
  = matchingEffect tokensMap TELEPROMPTER (appendTranscript prevTranscript t) st.
Proof.
  intros Hcur Hm H1 Hidx.
  destruct (Z.eq_dec (lastTranscriptLength st) (len prevTranscript)) as [Heq | Hne].
  { assert (st1 = st) as ->; [|reflexivity].
    unfold matchingEffect in H1. cbn [isTeleprompter negb] in H1.
    destruct (Z.leb_spec (len prevTranscript) (lastTranscriptLength st)); [|lia].
    congruence. }
  assert (Hgrow1 : lastTranscriptLength st < len prevTranscript) by lia.
  rewrite matchingEffect_consume in H1 by exact Hgrow1.
  assert (Hlen1 : lastTranscriptLength st1 = len prevTranscript).
  { unfold consumeTokens in H1.
    destruct (len _ =? 0) in H1; [injection H1 as <-; reflexivity|].
    destruct (lookupZ tokensMap (activeSegmentIndex st)); [|injection H1 as <-; reflexivity].
    destruct (matchLoop _ _ _ _ _) as [[?|?]|] in H1; cbn in H1; try discriminate;
      injection H1 as <-; reflexivity. }
  assert (Hlenw : len (appendTranscript prevTranscript t) = len prevTranscript + 1 + len t).
  { unfold appendTranscript. rewrite len_app. unfold len. cbn [length]. lia. }
  pose proof (len_nonneg t) as Ht.
  rewrite !matchingEffect_consume by lia.
  rewrite Hlen1. unfold appendTranscript.
  rewrite slice_app_end, slice_app_inside by lia.
  unfold parseSegmentToTokens in *.
  pose proof (scanTokens_separator (slice prevTranscript (lastTranscriptLength st)) 32 t
                eq_refl []) as Hsep.
  change (scanTokens [] (32 :: t)) with (scanTokens [] t).
  etransitivity;
    [|apply (f_equal (consumeTokens tokensMap st (len (prevTranscript ++ 32 :: t))));
      symmetry; exact Hsep].
  apply (consumeTokens_compose tokensMap st st1 (len prevTranscript)); assumption.
Qed.

Lemma transcript_chunks_compose_witness :
  matchingEffect (segmentTokensMap scriptHello) TELEPROMPTER
    (appendTranscript (ofAscii "Hello") (ofAscii "world"))
    (mkPanelState 0 1 5 None)
  = matchingEffect (segmentTokensMap scriptHello) TELEPROMPTER
      (appendTranscript (ofAscii "Hello") (ofAscii "world")) initialState.
Proof.
  apply (transcript_chunks_compose (segmentTokensMap scriptHello) (ofAscii "Hello")
           (ofAscii "world") initialState (mkPanelState 0 1 5 None)).
  - vm_compute. split; congruence.
  - cbn. lia.
  - vm_compute. reflexivity.
  - reflexivity.
Defined.

(** ** Noise, exact reading and the 60 percent rule *)

Lemma ratioExceeds_low (cmi : Z) (ct : list jsString) :
  0 < len ct -> 5 * cmi <= 3 * len ct -> ratioExceeds cmi ct = false.
Proof.
  intros Hlen Hlow. destruct (ratioExceeds cmi ct) eqn:E; [|reflexivity].
  apply ratioExceeds_integers in E; [lia | exact Hlen].
Qed.

(** X23.  Noise cannot move the position while at most 60 percent of the
    line is matched: on a segment with tokens, if [5 * matched <= 3 * length]
    and no spoken token equals any token of the segment, the loop over the
    spoken tokens ends without a jump at the index it started from, whatever
    the next segment begins with. *)
Theorem noise_below_ratio_is_ignored (tokensMap : list (list jsString)) (idx : Z)
    (ct : list jsString) (spoken : list jsString) (m : Z) :
  0 < len ct ->
  0 <= m ->
  5 * m <= 3 * len ct ->
  (forall token p, In token spoken -> hitsAt ct (toLowerCase token) p = false) ->
  matchLoop tokensMap idx ct spoken m = Normal (LoopEnd m).
Proof.
  intros Hlen Hm Hlow. induction spoken as [|token rest IH]; intros Hmiss;
    [reflexivity|].
  cbn [matchLoop].
  rewrite (localMatch_no_hit ct m (toLowerCase token) Hm)
    by (intros p _; apply Hmiss; now left).
  cbn [bind]. unfold crossSegment.
  rewrite (ratioExceeds_low m ct Hlen Hlow), andb_false_r. cbn [bind].
  apply IH. intros t p Ht. apply Hmiss. now right.
Qed.

Lemma noise_below_ratio_is_ignored_witness :
  matchLoop (segmentTokensMap scriptHello) 0 (parseSegmentToTokens (ofAscii "Hello world."))
    [ofAscii "Testing"; ofAscii "um"] 1 = Normal (LoopEnd 1).
Proof.
  apply noise_below_ratio_is_ignored.
  - vm_compute. reflexivity.
  - lia.
  - vm_compute. congruence.
  - assert (Hlen : len (parseSegmentToTokens (ofAscii "Hello world.")) = 2)
      by reflexivity.
    intros token p [<- | [<- | []]];
      unfold hitsAt; destruct (lookupZ _ p) as [t|] eqn:E; try reflexivity;
      pose proof (lookupZ_Some_range _ _ _ E) as Hr; rewrite Hlen in Hr;
      assert (p = 0 \/ p = 1) as [-> | ->] by lia;
      vm_compute in E; injection E as <-; reflexivity.
Defined.

Lemma matchLoop_lower_spoken (tokensMap : list (list jsString)) (idx : Z)
    (ct : list jsString) (spoken : list jsString) (m : Z) :
  matchLoop tokensMap idx ct (lowerTokens spoken) m = matchLoop tokensMap idx ct spoken m.
Proof.
  rewrite <- (matchLoop_lowerTokens tokensMap idx ct (lowerTokens spoken)).
  rewrite <- (matchLoop_lowerTokens tokensMap idx ct spoken).
  f_equal. unfold lowerTokens. rewrite map_map. apply map_ext.
  exact toLowerCase_idempotent.
Qed.

Lemma strEqb_refl (a : jsString) : strEqb a a = true.
Proof. now apply strEqb_eq. Qed.

Lemma skipn_step {A : Type} (l : list A) :
  forall n x r, skipn n l = x :: r -> skipn (S n) l = r.
Proof.
  induction l as [|y l IH]; intros n x r H.
  - now destruct n.
  - destruct n as [|n]; cbn in *; [now injection H | eapply IH; exact H].
Qed.

Lemma matchLoop_exact (tokensMap : list (list jsString)) (idx : Z) (ct : list jsString) :
  forall rest m,
  0 <= m <= len ct ->
  skipn (Z.to_nat m) ct = rest ->
  matchLoop tokensMap idx ct rest m = Normal (LoopEnd (len ct)).
Proof.
  induction rest as [|token rest IH]; intros m Hm Hskip.
  - cbn [matchLoop]. do 2 f_equal.
    apply (f_equal (@length jsString)) in Hskip. rewrite length_skipn in Hskip.
    cbn in Hskip. unfold len in *. lia.
  - assert (Hlt : m < len ct).
    { apply (f_equal (@length jsString)) in Hskip. rewrite length_skipn in Hskip.
      cbn in Hskip. unfold len in *. lia. }
    assert (Hnth : nth_error ct (Z.to_nat m) = Some token).
    { rewrite <- (firstn_skipn (Z.to_nat m) ct) at 1. rewrite Hskip.
      rewrite nth_error_app2 by (rewrite length_firstn; unfold len in *; lia).
      rewrite length_firstn.
      replace (Z.to_nat m - Nat.min (Z.to_nat m) (length ct))%nat with 0%nat
        by (unfold len in *; lia).
      reflexivity. }
    assert (Hhit : hitsAt ct (toLowerCase token) m = true).
    { unfold hitsAt, lookupZ. destruct (Z.ltb_spec m 0); [lia|].
      rewrite Hnth. apply strEqb_refl. }
    cbn [matchLoop].
    rewrite (localMatch_first_hit ct m (toLowerCase token) m) by (try lia; assumption).
    cbn [bind]. apply IH; [lia|].
    replace (Z.to_nat (m + 1)) with (S (Z.to_nat m)) by lia.
    eapply skipn_step; exact Hskip.
Qed.

(** X24.  Reading the rest of the line completes it: when the spoken tokens
    of the delta are, up to the case of letters, the tokens of the active
    segment from the matched count on, the update ends on the same segment
    with all of its tokens matched, and the auto-advance debounce is pending
    unless another timer already was. *)
Theorem reading_the_line_completes_it (tokensMap : list (list jsString))
    (transcript : jsString) (st : PanelState) (ct : list jsString) :
  lastTranscriptLength st < len transcript ->
  lookupZ tokensMap (activeSegmentIndex st) = Some ct ->
  0 <= matchedWordCount st < len ct ->
  lowerTokens (parseSegmentToTokens (slice transcript (lastTranscriptLength st)))
    = lowerTokens (skipn (Z.to_nat (matchedWordCount st)) ct) ->
  matchingEffect tokensMap TELEPROMPTER transcript st =
    Normal (mkPanelState (activeSegmentIndex st) (len ct) (len transcript)
              (match scrollTimeout st with
               | None => Some AutoAdvanceTimer
               | Some pending => Some pending
               end)).
Proof.
  intros Hgrow Hct Hm Hspoken.
  assert (Hne : parseSegmentToTokens (slice transcript (lastTranscriptLength st)) <> []).
  { intros Hnil. rewrite Hnil in Hspoken. cbn in Hspoken.
    symmetry in Hspoken. apply map_eq_nil in Hspoken.
    apply (f_equal (@length jsString)) in Hspoken. rewrite length_skipn in Hspoken.
    cbn in Hspoken. unfold len in *. lia. }
  rewrite (matchingEffect_active tokensMap transcript st ct Hgrow Hne Hct).
  rewrite <- matchLoop_lower_spoken, Hspoken, matchLoop_lower_spoken.
  rewrite (matchLoop_exact tokensMap _ ct _ (matchedWordCount st)) by (try lia; reflexivity).
  cbn [bind]. unfold afterLoop. cbn [scrollTimeout activeSegmentIndex lastTranscriptLength].
  destruct (Z.gtb_spec (len ct) 0); [|lia].
  destruct (Z.geb_spec (len ct) (len ct)); [|lia]. reflexivity.
Qed.

Lemma reading_the_line_completes_it_witness :
  matchingEffect (segmentTokensMap scriptHello) TELEPROMPTER (ofAscii "hello WORLD")
    initialState
  = Normal (mkPanelState 0 2 11 (Some AutoAdvanceTimer)).
Proof.
  apply (reading_the_line_completes_it (segmentTokensMap scriptHello)
           (ofAscii "hello WORLD") initialState
           (parseSegmentToTokens (ofAscii "Hello world."))).
  - vm_compute. reflexivity.
  - vm_compute. reflexivity.
  - vm_compute. split; congruence.
  - vm_compute. reflexivity.
Defined.

(** ** Scripts without terminal marks; scripts with a segment *)

Lemma replaceTerminals_none (s : jsString) :
  forallb (fun c => negb (isTerminal c)) s = true -> replaceTerminals false s = s.
Proof.
  induction s as [|c s IH]; [reflexivity|]. cbn [forallb replaceTerminals andb].
  intros H. apply andb_true_iff in H as [Hc Hs].
  apply negb_true_iff in Hc. rewrite Hc, (IH Hs). reflexivity.
Qed.

Lemma splitPipe_none (s : jsString) :
  forall cur, noPipe s = true -> splitPipe cur s = [cur ++ s].
Proof.
  induction s as [|c s IH]; intros cur Hs; cbn [splitPipe].
  - now rewrite app_nil_r.
  - cbn in Hs. apply andb_true_iff in Hs as [Hc Hs]. apply negb_true_iff in Hc.
    rewrite Hc, (IH _ Hs), <- app_assoc. reflexivity.
Qed.

(** X25.  Only terminal marks and pipes split a script: a script without
    any of them is one segment, its trimmed text, however many line breaks it
    contains (or no segment when it is blank). *)
Theorem script_without_marks_is_one_segment (script : jsString) :
  forallb (fun c => negb (isTerminal c)) script = true ->
  noPipe script = true ->
  segments script = if len (trim script) >? 0 then [trim script] else [].
Proof.
  intros Hterm Hpipe. unfold segments. destruct script as [|c s]; [reflexivity|].
  rewrite (replaceTerminals_none _ Hterm), (splitPipe_none _ [] Hpipe).
  reflexivity.
Qed.

Lemma script_without_marks_is_one_segment_witness :
  segments (ofAscii "line one" ++ 10 :: ofAscii "line two")
  = if len (trim (ofAscii "line one" ++ 10 :: ofAscii "line two")) >? 0
    then [trim (ofAscii "line one" ++ 10 :: ofAscii "line two")] else [].
Proof. apply script_without_marks_is_one_segment; reflexivity. Defined.

(** X26.  While the script stays the same and has at least one segment,
    every event keeps the position inside the script: from a state with
    [0 <= activeSegmentIndex <= segments.length] and, on an active segment,
    [0 <= matchedWordCount <= tokens.length], a transcript update, a firing
    timer, a manual scroll, a wheel event and the reset of a feature toggle
    all complete in a state that satisfies the same.  A script saved in the
    middle of a session is no such event and is not covered. *)
Theorem nonempty_script_keeps_invariant (tokensMap : list (list jsString))
    (st : PanelState) (ev : event) :
  1 <= segmentsLength tokensMap ->
  invariant tokensMap st ->
  exists st', step tokensMap st ev = Normal st' /\ invariant tokensMap st'.
Proof. intros Hlen Hinv. now apply step_invariant. Qed.

Lemma nonempty_script_keeps_invariant_witness :
  exists st', step (segmentTokensMap scriptHello) (mkPanelState 1 3 29 None)
                (ManualScroll prev) = Normal st' /\
              invariant (segmentTokensMap scriptHello) st'.
Proof.
  apply nonempty_script_keeps_invariant.
  - vm_compute. congruence.
  - split; [vm_compute; split; congruence|]. intros _.
    exists (parseSegmentToTokens (ofAscii "Testing one two.")).
    split; [reflexivity | vm_compute; split; congruence].
Defined.
